(** * EnderAI frontend: tasks, runs and library views

    A shallow embedding of the TypeScript sources
    ([src/api/tasks.ts], [src/api/library.ts],
    [src/components/Tasks/TasksPage.tsx],
    [src/components/Library/LibraryList.tsx] in its two revisions) and the
    properties of the memory-store specification that they decide.

    JavaScript strings are sequences of UTF-16 code units; they are modelled
    as lists of [N].  [String.prototype.trim], the regular expression class
    [\s], [split], [join], [slice] and [length] all work on code units, so
    the model of these operations is exact.  Case mapping, date parsing and
    locale collation are runtime services: they are section variables. *)

From Stdlib Require Import Strings.String Strings.Ascii.
From Stdlib Require Import List NArith ZArith Lia Bool Arith.
From Stdlib Require Import Sorting.Permutation Sorting.Sorted.
From Stdlib Require Import Relations.Relation_Operators.
Import ListNotations.

Set Implicit Arguments.
#[local] Open Scope N_scope.

(* ================================================================== *)
(** * Part I.  The model                                                *)
(* ================================================================== *)

(** ** JavaScript strings *)

Module Js.

Definition code_unit := N.
Definition jsstring := list code_unit.

(** A string literal whose characters are all below U+0100. *)
Definition u (s : String.string) : jsstring :=
  map Ascii.N_of_ascii (String.list_ascii_of_string s).

Arguments u s%_string.

(** [a === b] on strings. *)
Fixpoint streq (a b : jsstring) : bool :=
  match a, b with
  | [], [] => true
  | x :: a', y :: b' => N.eqb x y && streq a' b'
  | _, _ => false
  end.

(** ECMAScript WhiteSpace and LineTerminator code points: what [trim]
    strips and what [\s] matches. *)
Definition isWhiteSpace (c : code_unit) : bool :=
  ((9 <=? c) && (c <=? 13)) || (c =? 32) || (c =? 160) || (c =? 5760)
  || ((8192 <=? c) && (c <=? 8202)) || (c =? 8232) || (c =? 8233)
  || (c =? 8239) || (c =? 8287) || (c =? 12288) || (c =? 65279).

Fixpoint trimStart (s : jsstring) : jsstring :=
  match s with
  | [] => []
  | c :: s' => if isWhiteSpace c then trimStart s' else s
  end.

Definition trimEnd (s : jsstring) : jsstring := rev (trimStart (rev s)).

Definition trim (s : jsstring) : jsstring := trimEnd (trimStart s).

(** Truthiness of a string: the empty string is falsy. *)
Definition truthy (s : jsstring) : bool :=
  match s with [] => false | _ :: _ => true end.

(** [x || y] on [string | null | undefined]. *)
Definition or_else (x y : option jsstring) : option jsstring :=
  match x with
  | Some s => if truthy s then x else y
  | None => y
  end.

(** [x?.trim() || undefined] *)
Definition trimmed_or_undefined (x : option jsstring) : option jsstring :=
  or_else (option_map trim x) None.

(** A string of white space only (the empty string included). *)
Definition blank (s : jsstring) : bool := forallb isWhiteSpace s.

(** What a request carries for an optional text filter that is meant to be
    insensitive to white space: nothing for a missing or blank value, the
    trimmed value otherwise. *)
Definition sent_filter (given sent : option jsstring) : Prop :=
  match given with
  | None => sent = None
  | Some raw => if blank raw then sent = None else sent = Some (trim raw)
  end.

(** [s.startsWith(p)], used to match literal patterns. *)
Fixpoint starts_with (p s : jsstring) : bool :=
  match p, s with
  | [], _ => true
  | x :: p', y :: s' => N.eqb x y && starts_with p' s'
  | _ :: _, [] => false
  end.

(** [s.split(sep)] for a one-code-unit separator: never the empty list. *)
Fixpoint split (sep : code_unit) (s : jsstring) : list jsstring :=
  match s with
  | [] => [[]]
  | c :: s' =>
      if N.eqb c sep then [] :: split sep s'
      else match split sep s' with
           | [] => [[c]]
           | t :: ts => (c :: t) :: ts
           end
  end.

(** [parts.join(sep)]. *)
Fixpoint join (sep : jsstring) (parts : list jsstring) : jsstring :=
  match parts with
  | [] => []
  | [p] => p
  | p :: ps => p ++ sep ++ join sep ps
  end.

(** [s.slice(0, n)] and [s.slice(n)] for [0 <= n]. *)
Definition slice_to (n : nat) (s : jsstring) : jsstring := firstn n s.
Definition slice_from (n : nat) (s : jsstring) : jsstring := skipn n s.

(** [s.charAt(0)]: the empty string when [s] is empty. *)
Definition charAt0 (s : jsstring) : jsstring := firstn 1%nat s.

(** [s.replace(/p/g, r)] for a non-empty literal pattern [p]: leftmost,
    non-overlapping matches; [skip] counts the code units of a match that
    are still to be consumed. *)
Fixpoint replace_go (p r : jsstring) (skip : nat) (s : jsstring) : jsstring :=
  match s with
  | [] => []
  | c :: s' =>
      match skip with
      | S k => replace_go p r k s'
      | O =>
          if starts_with p s then r ++ replace_go p r (Nat.pred (length p)) s'
          else c :: replace_go p r 0%nat s'
      end
  end.

Definition replaceAll (p r s : jsstring) : jsstring :=
  replace_go p r 0%nat s.

(** [s.replace(/\s+/g, " ")]: [inrun] tells that the previous code unit was
    white space, whose run has already produced its one space. *)
Fixpoint collapse_go (inrun : bool) (s : jsstring) : jsstring :=
  match s with
  | [] => []
  | c :: s' =>
      if isWhiteSpace c
      then (if inrun then collapse_go true s' else 32%N :: collapse_go true s')
      else c :: collapse_go false s'
  end.

Definition collapseWhiteSpace (s : jsstring) : jsstring := collapse_go false s.

(** No two adjacent white-space code units. *)
Fixpoint single_spaced (s : jsstring) : bool :=
  match s with
  | a :: (b :: _) as t =>
      negb (isWhiteSpace a && isWhiteSpace b) && single_spaced t
  | _ => true
  end.

(** The code units of a text that are not white space, in order. *)
Definition ink (s : jsstring) : jsstring :=
  filter (fun c => negb (isWhiteSpace c)) s.

(** Case mapping restricted to the ASCII letters, where it agrees with
    [toLowerCase] and [toUpperCase]; used for concrete instances only. *)
Definition asciiLowerUnit (c : code_unit) : code_unit :=
  if (65 <=? c) && (c <=? 90) then c + 32 else c.
Definition asciiUpperUnit (c : code_unit) : code_unit :=
  if (97 <=? c) && (c <=? 122) then c - 32 else c.
Definition asciiLowerCase (s : jsstring) : jsstring := map asciiLowerUnit s.
Definition asciiUpperCase (s : jsstring) : jsstring := map asciiUpperUnit s.

(** Comparison by code units, a consistent comparator used where a concrete
    collation is needed. *)
Fixpoint codeUnitCompare (a b : jsstring) : Z :=
  match a, b with
  | [], [] => 0
  | [], _ :: _ => -1
  | _ :: _, [] => 1
  | x :: a', y :: b' =>
      match N.compare x y with
      | Lt => -1
      | Gt => 1
      | Eq => codeUnitCompare a' b'
      end
  end%Z.

(** Values typed [unknown] are kept as their JSON text. *)
Definition unknown := jsstring.

End Js.

Import Js.

(** ** [src/api/library.ts] *)

Module LibraryApi.

Inductive LibraryItemKind := recipe | pitfall | decision | checklist.

Inductive PromotionMode := auto | user.

Record LibraryItemPublic := {
  id : jsstring;
  workflow_key : jsstring;
  kind : LibraryItemKind;
  title : jsstring;
  body_mdc : jsstring;
  tags : list (jsstring * unknown);
  source_refs : list unknown;
  promotion_mode : PromotionMode;
  created_at : option jsstring;
  last_used_at : option jsstring;
  superseded_by_id : option jsstring
}.

Record WorkflowKeyCount := {
  wk_workflow_key : jsstring;
  bucket_name : jsstring;
  wk_count : Z
}.

Record ReadLibraryItemsParams := {
  p_workflow_key : option jsstring;
  p_kind : option LibraryItemKind;
  p_q : option jsstring;
  p_current_only : option bool;
  p_skip : option Z;
  p_limit : option Z
}.

(** The [query] object handed to [request]; [None] is [undefined], which
    the client leaves out of the URL. *)
Record Query := {
  q_workflow_key : option jsstring;
  q_kind : option LibraryItemKind;
  q_q : option jsstring;
  q_current_only : option bool;
  q_skip : option Z;
  q_limit : option Z
}.

(** [readLibraryItems]: GET /api/v1/library/ with this query. *)
Definition readLibraryItems (params : ReadLibraryItemsParams) : Query :=
  let workflow_key := trimmed_or_undefined (p_workflow_key params) in
  let q := trimmed_or_undefined (p_q params) in
  {| q_workflow_key := workflow_key;
     q_kind := p_kind params;
     q_q := q;
     q_current_only := p_current_only params;
     q_skip := p_skip params;
     q_limit := p_limit params |}.

End LibraryApi.

(** ** [src/api/tasks.ts] *)

Module TasksApi.

Record TaskPublic := {
  id : jsstring;
  title : jsstring;
  workflow_key : jsstring;
  goal : option jsstring;
  acceptance_criteria : option jsstring;
  systems_touched : list (jsstring * unknown);
  risk_level : jsstring;
  status : jsstring;
  created_at : option jsstring;
  last_touched_at : option jsstring
}.

Inductive RunLibraryRelation := used | created | promoted | superseded.

Record RunMemoryLinkPublic := {
  relation : RunLibraryRelation;
  link_created_at : option jsstring;
  library_item : LibraryApi.LibraryItemPublic
}.

Record ReadTasksParams := {
  p_workflow_key : option jsstring;
  p_status : option jsstring;
  p_q : option jsstring;
  p_skip : option Z;
  p_limit : option Z
}.

Record Query := {
  q_workflow_key : option jsstring;
  q_status : option jsstring;
  q_q : option jsstring;
  q_skip : option Z;
  q_limit : option Z
}.

(** [readTasks]: GET /api/v1/tasks/ with this query. *)
Definition readTasks (params : ReadTasksParams) : Query :=
  let workflow_key := trimmed_or_undefined (p_workflow_key params) in
  let status := trimmed_or_undefined (p_status params) in
  let q := trimmed_or_undefined (p_q params) in
  {| q_workflow_key := workflow_key;
     q_status := status;
     q_q := q;
     q_skip := p_skip params;
     q_limit := p_limit params |}.

End TasksApi.

(** ** [src/components/Tasks/TasksPage.tsx] *)

Module TasksPage.

Import TasksApi.

(** *** [humanizeWorkflowKey] *)

Section Humanize.

(** [String.prototype.toLowerCase] and [toUpperCase]. *)
Variables toLowerCase toUpperCase : jsstring -> jsstring.

(** The callback of [.map]. *)
Definition humanizePart (part : jsstring) : jsstring :=
  let lower := toLowerCase part in
  if streq lower (u "github") then u "GitHub"
  else if streq lower (u "api") then u "API"
  else if streq lower (u "db") then u "DB"
  else toUpperCase (charAt0 part) ++ slice_from 1 part.

Definition humanizeWorkflowKey (workflowKey : jsstring) : jsstring :=
  join (u " ") (map humanizePart (filter truthy (split 95 workflowKey))).

(** The derivation of [bucket_name] in the words of the specification:
    split on [_], capitalize each token, substitute the acronym table,
    join with one space.  Only used to compare with the code. *)
Definition spec_acronym (token : jsstring) : option jsstring :=
  if streq token (u "github") then Some (u "GitHub")
  else if streq token (u "api") then Some (u "API")
  else if streq token (u "db") then Some (u "DB")
  else None.

Definition spec_capitalize (token : jsstring) : jsstring :=
  toUpperCase (firstn 1 token) ++ skipn 1 token.

Definition spec_token (token : jsstring) : jsstring :=
  match spec_acronym (toLowerCase token) with
  | Some a => a
  | None => spec_capitalize token
  end.

Definition spec_bucket_name (workflow_key : jsstring) : jsstring :=
  join (u " ") (map spec_token (split 95 workflow_key)).

End Humanize.

(** The key with its empty tokens removed. *)
Definition squeeze (workflowKey : jsstring) : jsstring :=
  join (u "_") (filter truthy (split 95 workflowKey)).

(** *** [TaskDialog]: the rename state and its handlers *)

Record RenameState := {
  taskTitle : jsstring;
  isRenamingTitle : bool;
  titleDraft : jsstring;
  titleError : option jsstring;
  skipBlurCommit : bool
}.

Definition msg_empty_title : jsstring :=
  u "Title can" ++ [8217] ++ u "t be empty.".

Definition msg_rename_failed : jsstring :=
  u "Couldn" ++ [8217] ++ u "t rename task. Check backend connectivity/auth.".

(** [onChange] of the title input. *)
Definition onChange (st : RenameState) (value : jsstring) : RenameState :=
  {| taskTitle := taskTitle st;
     isRenamingTitle := isRenamingTitle st;
     titleDraft := value;
     titleError := None;
     skipBlurCommit := skipBlurCommit st |}.

Definition cancelRename (st : RenameState) : RenameState :=
  {| taskTitle := taskTitle st;
     isRenamingTitle := false;
     titleDraft := taskTitle st;
     titleError := None;
     skipBlurCommit := false |}.

(** [commitRename]: the new state and the argument of
    [renameMutation.mutate] when the mutation is started. *)
Definition commitRename (st : RenameState) : RenameState * option jsstring :=
  let next := trim (titleDraft st) in
  if negb (truthy next) then
    ({| taskTitle := taskTitle st;
        isRenamingTitle := isRenamingTitle st;
        titleDraft := titleDraft st;
        titleError := Some msg_empty_title;
        skipBlurCommit := skipBlurCommit st |}, None)
  else if streq next (trim (taskTitle st)) then (cancelRename st, None)
  else (st, Some next).

(** [onSuccess] and [onError] of [renameMutation]. *)
Definition onSuccess (st : RenameState) (updated : TaskPublic) : RenameState :=
  {| taskTitle := title updated;
     isRenamingTitle := false;
     titleDraft := title updated;
     titleError := None;
     skipBlurCommit := skipBlurCommit st |}.

Definition onError (st : RenameState) : RenameState :=
  {| taskTitle := taskTitle st;
     isRenamingTitle := isRenamingTitle st;
     titleDraft := titleDraft st;
     titleError := Some msg_rename_failed;
     skipBlurCommit := skipBlurCommit st |}.

(** The effect of [TaskDialog] on [[task.title, isRenamingTitle]]:
    [setTaskTitle(task.title)], and [setTitleDraft(task.title)] unless the
    title is being renamed.  [task_title] is the prop [task.title]. *)
Definition syncTitleEffect (task_title : jsstring) (st : RenameState)
    : RenameState :=
  {| taskTitle := task_title;
     isRenamingTitle := isRenamingTitle st;
     titleDraft := if isRenamingTitle st then titleDraft st else task_title;
     titleError := titleError st;
     skipBlurCommit := skipBlurCommit st |}.

(** The state once React has rendered [next] after [prev] and has run the
    effect when one of its two dependencies differs from the previous
    render.  The effect leaves both dependencies alone, so it runs at most
    once. *)
Definition settle (prev_title next_title : jsstring)
    (prev next : RenameState) : RenameState :=
  if negb (streq prev_title next_title)
     || negb (Bool.eqb (isRenamingTitle prev) (isRenamingTitle next))
  then syncTitleEffect next_title next
  else next.

(** [onDoubleClick] of the title (and Enter on it). *)
Definition onDoubleClick (st : RenameState) : RenameState :=
  {| taskTitle := taskTitle st;
     isRenamingTitle := true;
     titleDraft := taskTitle st;
     titleError := None;
     skipBlurCommit := skipBlurCommit st |}.

(** Starting to rename: the double click and the render that follows. *)
Definition startRename (task_title : jsstring) (st : RenameState)
    : RenameState :=
  settle task_title task_title st (onDoubleClick st).

(** A commit, the settlement of the mutation it started, and the render
    that follows, with the effect.  [updateTaskTitle] answers the PATCH
    request with the updated task, or rejects it; the prop [task.title]
    stays [task_title] throughout, because the task list has not been
    fetched again yet. *)
Definition renameFlow (updateTaskTitle : jsstring -> option TaskPublic)
    (task_title : jsstring) (st : RenameState) : RenameState :=
  match commitRename st with
  | (st', None) => settle task_title task_title st st'
  | (st', Some nextTitle) =>
      match updateTaskTitle nextTitle with
      | Some updated => settle task_title task_title st' (onSuccess st' updated)
      | None => settle task_title task_title st' (onError st')
      end
  end.

(** The task list that [invalidateQueries] makes stale has been fetched
    again: the dialog is rendered with the prop [task.title] changed from
    [old_title] to [new_title]. *)
Definition refetched (old_title new_title : jsstring) (st : RenameState)
    : RenameState :=
  settle old_title new_title st st.

(** *** [RunDetailDialog]: links grouped by relation *)

Definition relation_eqb (a b : RunLibraryRelation) : bool :=
  match a, b with
  | used, used | created, created | promoted, promoted
  | superseded, superseded => true
  | _, _ => false
  end.

(** [Record<RunLibraryRelation, RunMemoryLinkPublic[]>] *)
Definition Groups := RunLibraryRelation -> list RunMemoryLinkPublic.

Definition empty_groups : Groups := fun _ => [].

(** [Object.keys(grouped)], in insertion order. *)
Definition group_keys : list RunLibraryRelation :=
  [used; created; promoted; superseded].

(** [groups[r].push(link)] *)
Definition push (groups : Groups) (r : RunLibraryRelation)
    (link : RunMemoryLinkPublic) : Groups :=
  fun r' => if relation_eqb r r' then groups r' ++ [link] else groups r'.

Definition grouped (memory_links : list RunMemoryLinkPublic) : Groups :=
  fold_left (fun groups link => push groups (relation link) link)
            memory_links empty_groups.

(** The links with relation [r]. *)
Definition of_relation (r : RunLibraryRelation) (link : RunMemoryLinkPublic)
    : bool :=
  relation_eqb (relation link) r.

(** *** [TasksPage]: the visible tasks *)

(** [Array.prototype.sort] with a comparator: a stable sort. *)
Section Sort.
Variable A : Type.
Variable compareFn : A -> A -> Z.

Fixpoint insert (x : A) (l : list A) : list A :=
  match l with
  | [] => [x]
  | y :: l' =>
      if (compareFn x y <=? 0)%Z then x :: l else y :: insert x l'
  end.

Definition sort (l : list A) : list A := fold_right insert [] l.

(** The order that the comparator asks for. *)
Definition ordered (a b : A) : Prop := (compareFn a b <= 0)%Z.
End Sort.

Section VisibleTasks.

(** [new Date(raw).getTime()], [None] for NaN. *)
Variable getTime : jsstring -> option Z.
(** [String.prototype.localeCompare]. *)
Variable localeCompare : jsstring -> jsstring -> Z.

Definition score (task : TaskPublic) : Z :=
  match or_else (last_touched_at task) (created_at task) with
  | None => 0
  | Some raw =>
      if negb (truthy raw) then 0
      else match getTime raw with
           | None => 0
           | Some parsed => parsed
           end
  end%Z.

(** [score(b) - score(a) || a.title.localeCompare(b.title)] *)
Definition compareTasks (a b : TaskPublic) : Z :=
  let d := (score b - score a)%Z in
  if (d =? 0)%Z then localeCompare (title a) (title b) else d.

Definition visibleTasks (tasks : list TaskPublic) (workflowKey : jsstring)
    : list TaskPublic :=
  let filtered :=
    if streq workflowKey (u "all") then tasks
    else filter (fun task => streq (workflow_key task) workflowKey) tasks in
  sort compareTasks filtered.

(** The selection made by the workflow filter. *)
Definition selected (workflowKey : jsstring) (task : TaskPublic) : bool :=
  streq workflowKey (u "all") || streq (workflow_key task) workflowKey.

(** Recency in the words of the claim: the time of last_touched_at, else of
    created_at, where a missing (null or empty) or unparsable timestamp
    counts 0.  Only used to compare with [score]. *)
Definition time_or_zero (raw : jsstring) : Z :=
  match getTime raw with Some parsed => parsed | None => 0%Z end.

Definition spec_recency (task : TaskPublic) : Z :=
  match last_touched_at task with
  | Some (c :: raw) => time_or_zero (c :: raw)
  | _ =>
      match created_at task with
      | Some (c :: raw) => time_or_zero (c :: raw)
      | _ => 0%Z
      end
  end.

(** The order of the displayed list: more recent first, and among equally
    recent tasks the title that collates first. *)
Definition shown_before (a b : TaskPublic) : Prop :=
  (spec_recency b < spec_recency a)%Z
  \/ (spec_recency a = spec_recency b
      /\ (localeCompare (title a) (title b) <= 0)%Z).

End VisibleTasks.

(** *** What the query-driven components render *)

Record Error := { message : jsstring }.

(** The part of a [useQuery] result that the components read. *)
Record QueryResult (A : Type) := {
  isLoading : bool;
  isError : bool;
  data : option A;
  error : option Error
}.

Inductive View (A : Type) : Type :=
| Skeleton
| ErrorPanel (heading detail : jsstring)
| Loaded (d : option A)
| ThrowsTypeError.

Arguments Skeleton {A}.
Arguments ErrorPanel {A} heading detail.
Arguments Loaded {A} d.
Arguments ThrowsTypeError {A}.

Definition couldnt (what : String.string) : jsstring :=
  u "Couldn" ++ [8217] ++ u "t " ++ u what.

Definition RunDetailDialog_view (A : Type) (query : QueryResult A) : View A :=
  if isLoading query then Skeleton
  else if isError query then
    ErrorPanel (couldnt "load Run detail")
               (u "Check backend connectivity and auth.")
  else Loaded (data query).

Definition TaskDialog_runs_view (A : Type) (query : QueryResult A) : View A :=
  if isLoading query then Skeleton
  else if isError query then
    ErrorPanel (couldnt "load Runs") (u "Check backend connectivity and auth.")
  else Loaded (data query).

Definition TasksPage_view (A : Type) (query : QueryResult A) : View A :=
  if isLoading query then Skeleton
  else if isError query then
    ErrorPanel (couldnt "load Tasks")
      (u "Check backend connectivity/auth and that memory tables exist.")
  else Loaded (data query).

(** The text a view shows about an error. *)
Definition error_text (A : Type) (v : View A) : list jsstring :=
  match v with
  | ErrorPanel heading detail => [heading; detail]
  | _ => []
  end.

(** The branch of its guards that a component returns from.  What the
    loaded branch goes on to render is left out. *)
Inductive Branch :=
| SkeletonBranch
| ErrorBranch (heading detail : jsstring)
| LoadedBranch
| ThrowingBranch.

Definition branch_of (A : Type) (v : View A) : Branch :=
  match v with
  | Skeleton => SkeletonBranch
  | ErrorPanel heading detail => ErrorBranch heading detail
  | Loaded _ => LoadedBranch
  | ThrowsTypeError => ThrowingBranch
  end.

End TasksPage.

(** ** [src/components/Library/LibraryList.tsx], both revisions

    The earlier revision is the file of that name; the later one
    ([src/unnamed/part_000]) adds the dialog, the heading removal and the
    right trim of the preview. *)

Module LibraryList.

Import LibraryApi TasksPage.

Definition ellipsis : jsstring := [8230].

(** *** Earlier revision *)

Definition BodyPreview_v1 (body : jsstring) : jsstring :=
  let normalized := trim (collapseWhiteSpace body) in
  if (length normalized <=? 220)%nat then normalized
  else slice_to 220 normalized ++ ellipsis.

(** [LibraryCard]: the preview on the card of an item with this
    [body_mdc]. *)
Definition LibraryCard_preview_v1 (body_mdc : jsstring) : jsstring :=
  BodyPreview_v1 body_mdc.

Definition LibraryList_view_v1 (A : Type) (itemsQuery : QueryResult A)
    : View A :=
  if isLoading itemsQuery
     || match data itemsQuery with None => true | Some _ => false end
  then Skeleton
  else if isError itemsQuery then
    match error itemsQuery with
    | Some e => ErrorPanel (couldnt "load Library") (message e)
    | None => ThrowsTypeError
    end
  else Loaded (data itemsQuery).

(** *** Later revision *)

Definition normalizeBodyMdc (body : jsstring) : jsstring :=
  replaceAll [92; 110] [10]
    (replaceAll [92; 114; 92; 110] [10]
       (replaceAll [13; 10] [10] body)).

(** [while (lines.length > 0 && lines[0].trim().length === 0) lines.shift()] *)
Fixpoint dropBlankLines (lines : list jsstring) : list jsstring :=
  match lines with
  | [] => []
  | l :: rest =>
      if (length (trim l) =? 0)%nat then dropBlankLines rest else lines
  end.

Fixpoint dropHashes (s : jsstring) : jsstring :=
  match s with
  | 35 :: s' => dropHashes s'
  | _ => s
  end.

(** The test of the regular expression literal as it is written in the
    source: one or more [#], then a backslash, then the letter [s]. *)
Definition isHeadingLine (line : jsstring) : bool :=
  match line with
  | 35 :: rest => starts_with [92; 115] (dropHashes rest)
  | _ => false
  end.

Definition dropLeadingHeading (body : jsstring) : jsstring :=
  let normalized := normalizeBodyMdc body in
  let lines := dropBlankLines (split 10 normalized) in
  let lines :=
    match lines with
    | first :: rest =>
        if isHeadingLine first then dropBlankLines rest else lines
    | [] => lines
    end in
  join [10] lines.

Definition BodyPreview_v2 (body : jsstring) : jsstring :=
  let normalized := trim (collapseWhiteSpace (dropLeadingHeading body)) in
  if (length normalized <=? 220)%nat then normalized
  else trimEnd (slice_to 220 normalized) ++ ellipsis.

(** [LibraryCard]: the card normalizes [item.body_mdc] and hands the
    result to [BodyPreview], which normalizes it again. *)
Definition LibraryCard_preview_v2 (body_mdc : jsstring) : jsstring :=
  BodyPreview_v2 (normalizeBodyMdc body_mdc).

Definition LibraryList_view_v2 (A : Type) (itemsQuery : QueryResult A)
    : View A :=
  if isLoading itemsQuery then Skeleton
  else if isError itemsQuery then
    match error itemsQuery with
    | Some e => ErrorPanel (couldnt "load Library") (message e)
    | None => ThrowsTypeError
    end
  else match data itemsQuery with
       | None => Skeleton
       | Some _ => Loaded (data itemsQuery)
       end.

(** The preview in the words of the specification: collapse the white space
    of the body, trim, and cut at 220 code units.  Only used to compare
    with the code. *)
Definition spec_preview (right_trim : bool) (body : jsstring) : jsstring :=
  let normalized := trim (collapseWhiteSpace body) in
  if (length normalized <=? 220)%nat then normalized
  else (if right_trim then trimEnd (firstn 220 normalized)
        else firstn 220 normalized) ++ ellipsis.

End LibraryList.

(** ** The Library Store of the specification

    The store sits behind the HTTP API; the sources hold only the type of
    the items it returns and the callers of its listing.  Everything in this
    module is modelled from the specification (sections 3, 4.3, 5 and 7). *)

Module LibraryStore.

Import LibraryApi.

#[local] Open Scope nat_scope.

(** Modelled from the spec: the error taxonomy of section 7; the store that
    raises these errors is not in the sources. *)
Inductive StoreError :=
| NotFound | ValidationError | ConflictError | AuthError | TransientError.

(** Modelled from the spec: a stored LibraryItem (section 3); the sources
    only declare its JSON view.  Identifiers are the store's row numbers. *)
Record LibraryItem := {
  id : nat;
  workflow_key : jsstring;
  kind : LibraryItemKind;
  title : jsstring;
  body : jsstring;
  tags : list (jsstring * unknown);
  source_refs : list unknown;
  promotion_mode : PromotionMode;
  created_at : Z;
  last_used_at : option Z;
  superseded_by_id : option nat
}.

(** Modelled from the spec: the caller-supplied fields of [create] and
    [supersede] (section 4.3), whose implementation is not in the
    sources. *)
Record NewFields := {
  n_workflow_key : jsstring;
  n_kind : LibraryItemKind;
  n_title : jsstring;
  n_body : jsstring;
  n_tags : list (jsstring * unknown);
  n_source_refs : list unknown;
  n_promotion_mode : PromotionMode
}.

(** Modelled from the spec: the stored rows, oldest first; the backing
    store is not in the sources. *)
Definition Store := list LibraryItem.

(** The ids in use. *)
Definition ids (s : Store) : list nat := map id s.

(** Modelled from the spec: the generated id of a new item (section 4.3,
    [create]), one more than every id in use; the generator is not in the
    sources. *)
Definition next_id (s : Store) : nat :=
  fold_right (fun it m => Nat.max (S (id it)) m) 0 s.

(** Modelled from the spec: lookup of an item by id, missing from the
    sources. *)
Definition lookup (i : nat) (s : Store) : option LibraryItem :=
  find (fun it => id it =? i) s.

(** Modelled from the spec: a fresh current item (section 4.3, [create]:
    superseded_by_id = null, created_at = now); missing from the sources. *)
Definition new_item (i : nat) (now : Z) (f : NewFields) : LibraryItem :=
  {| id := i;
     workflow_key := n_workflow_key f;
     kind := n_kind f;
     title := n_title f;
     body := n_body f;
     tags := n_tags f;
     source_refs := n_source_refs f;
     promotion_mode := n_promotion_mode f;
     created_at := now;
     last_used_at := None;
     superseded_by_id := None |}.

(** Modelled from the spec: [create(fields)] of section 4.3, missing from
    the sources. *)
Definition create (now : Z) (f : NewFields) (s : Store) : LibraryItem * Store :=
  let it := new_item (next_id s) now f in (it, s ++ [it]).

(** Modelled from the spec: step (c) of [supersede], the only write to an
    existing row; missing from the sources. *)
Definition point_to (old_id new_id : nat) (it : LibraryItem) : LibraryItem :=
  if id it =? old_id then
    {| id := id it;
       workflow_key := workflow_key it;
       kind := kind it;
       title := title it;
       body := body it;
       tags := tags it;
       source_refs := source_refs it;
       promotion_mode := promotion_mode it;
       created_at := created_at it;
       last_used_at := last_used_at it;
       superseded_by_id := Some new_id |}
  else it.

(** Modelled from the spec: [supersede(old_id, new_fields)] of section 4.3
    as one atomic transaction (section 5): verify that the old item exists
    and is still current, create the new item, point the old one to it; a
    head that has already moved is a ConflictError and nothing is written.
    Missing from the sources. *)
Definition supersede (now : Z) (old_id : nat) (f : NewFields) (s : Store)
    : (StoreError + LibraryItem) * Store :=
  match lookup old_id s with
  | None => (inl NotFound, s)
  | Some old =>
      match superseded_by_id old with
      | Some _ => (inl ConflictError, s)
      | None =>
          let it := new_item (next_id s) now f in
          (inr it, map (point_to old_id (id it)) s ++ [it])
      end
  end.

(** Modelled from the spec: the two write paths of the store, as the
    operations of a history; the store is not in the sources. *)
Inductive Op :=
| Create (now : Z) (f : NewFields)
| Supersede (now : Z) (old_id : nat) (f : NewFields).

(** Modelled from the spec: the effect of one committed transaction on the
    store, which is not in the sources. *)
Definition apply_op (s : Store) (op : Op) : Store :=
  match op with
  | Create now f => snd (create now f s)
  | Supersede now old_id f => snd (supersede now old_id f s)
  end.

(** Modelled from the spec: the store after a history of committed
    transactions, starting empty; missing from the sources. *)
Definition run (history : list Op) : Store :=
  fold_left apply_op history [].

(** Modelled from the spec: concurrent [supersede] calls commit one at a
    time in some order (section 5: every mutation is a single atomic
    transaction); this gives each call's outcome and the final store.
    Missing from the sources. *)
Fixpoint commit_all (calls : list (Z * nat * NewFields)) (s : Store)
    : list (nat * (StoreError + LibraryItem)) * Store :=
  match calls with
  | [] => ([], s)
  | (now, old_id, f) :: rest =>
      let (r, s') := supersede now old_id f s in
      let (rs, s'') := commit_all rest s' in
      ((old_id, r) :: rs, s'')
  end.

(** The calls on [old_id] that succeeded. *)
Definition winners (old_id : nat)
    (outcomes : list (nat * (StoreError + LibraryItem)))
    : list (nat * (StoreError + LibraryItem)) :=
  filter (fun o => (fst o =? old_id)
                   && match snd o with inr _ => true | inl _ => false end)
         outcomes.

(** Modelled from the spec: chain traversal (section 4.3), walking
    superseded_by_id forward until null; [fuel] bounds the walk.  Missing
    from the sources. *)
Fixpoint head_of (fuel : nat) (s : Store) (i : nat) : option nat :=
  match fuel with
  | O => None
  | S fuel' =>
      match lookup i s with
      | None => None
      | Some it =>
          match superseded_by_id it with
          | None => Some i
          | Some j => head_of fuel' s j
          end
      end
  end.

(** One link of a chain: the item [x] has been superseded by [y]. *)
Definition superseded_by (s : Store) (x y : nat) : Prop :=
  exists it, In it s /\ id it = x /\ superseded_by_id it = Some y.

(** Two items are versions of one another: members of the same chain. *)
Definition same_chain (s : Store) : nat -> nat -> Prop :=
  clos_refl_sym_trans nat (superseded_by s).

(** The item [h] is stored and current. *)
Definition current (s : Store) (h : nat) : Prop :=
  exists it, In it s /\ id it = h /\ superseded_by_id it = None.

(** The head of [a] has moved: the item is stored and no longer
    current. *)
Definition moved (s : Store) (a : nat) : Prop :=
  exists it, lookup a s = Some it /\ superseded_by_id it <> None.

(** The store keeps the single-head discipline: ids are unique, and every
    forward pointer leads to a later, stored item. *)
Definition well_formed (s : Store) : Prop :=
  NoDup (ids s)
  /\ forall it j, In it s -> superseded_by_id it = Some j ->
                  id it < j /\ In j (ids s).

(** The committed transactions of a batch of concurrent calls. *)
Definition as_op (call : Z * nat * NewFields) : Op :=
  match call with (now, old_id, f) => Supersede now old_id f end.

(** *** Listing *)

(** Modelled from the spec: the answer of a list endpoint (section 6),
    [{data, count}] with [count] the total of matching rows; the endpoint
    is not in the sources. *)
Record Page := {
  data : list LibraryItem;
  count : nat
}.

(** Modelled from the spec: an item is current when its superseded_by_id
    is null (section 3); the store's test is not in the sources. *)
Definition is_current (it : LibraryItem) : bool :=
  match superseded_by_id it with None => true | Some _ => false end.

Definition kind_eqb (a b : LibraryItemKind) : bool :=
  match a, b with
  | recipe, recipe | pitfall, pitfall | decision, decision
  | checklist, checklist => true
  | _, _ => false
  end.

Section Listing.

(** The text search of the store; its semantics is outside the
    specification. *)
Variable q_matches : jsstring -> LibraryItem -> bool.
(** The page size when the request gives none. *)
Variable default_limit : nat.

(** Modelled from the spec: the filters of [list] other than
    [current_only] (section 4.3); the listing is not in the sources. *)
Definition other_filters (query : Query) (it : LibraryItem) : bool :=
  match q_workflow_key query with
  | Some k => streq (workflow_key it) k
  | None => true
  end
  && match q_kind query with
     | Some k => kind_eqb (kind it) k
     | None => true
     end
  && match q_q query with
     | Some q => q_matches q it
     | None => true
     end.

(** Modelled from the spec: [current_only=true] excludes every item with
    non-null superseded_by_id (section 4.3); missing from the sources. *)
Definition current_filter (query : Query) (it : LibraryItem) : bool :=
  match q_current_only query with
  | Some true => is_current it
  | _ => true
  end.

(** Modelled from the spec: the rows that a listing matches, before
    pagination; the listing is not in the sources. *)
Definition matching (query : Query) (s : Store) : list LibraryItem :=
  filter (fun it => current_filter query it && other_filters query it) s.

(** Modelled from the spec: the [skip] and [limit] of a request
    (section 6), with the endpoint's defaults when the request leaves them
    out; the endpoint is not in the sources. *)
Definition page_skip (query : Query) : Z :=
  match q_skip query with Some z => z | None => 0%Z end.

Definition page_limit (query : Query) : Z :=
  match q_limit query with
  | Some z => z
  | None => Z.of_nat default_limit
  end.

(** Modelled from the spec: [list(filters, skip, limit)] of section 4.3
    with the pagination of section 6: [data] is the window of the
    matching rows, [count] their total; malformed bounds are a
    ValidationError (section 7).  Missing from the sources. *)
Definition list_items (query : Query) (s : Store) : StoreError + Page :=
  let skip := page_skip query in
  let limit := page_limit query in
  if (skip <? 0)%Z || (limit <? 0)%Z then inl ValidationError
  else inr {| data := firstn (Z.to_nat limit)
                        (skipn (Z.to_nat skip) (matching query s));
              count := length (matching query s) |}.

End Listing.

End LibraryStore.

(** ** More string operations *)

Module JsMore.

(** [s.includes(p)] *)
Fixpoint includes (p s : jsstring) : bool :=
  starts_with p s
  || match s with
     | [] => false
     | _ :: s' => includes p s'
     end.

(** [s.replace(/\\n/g, "\n")]: the last step of [normalizeBodyMdc]. *)
Definition unescape (s : jsstring) : jsstring := replaceAll [92; 110] [10] s.

(** A line of [#]s, at least one, followed by [rest]. *)
Definition hashes_then (n : nat) (rest : jsstring) : jsstring :=
  repeat 35 (S n) ++ rest.

End JsMore.

(** ** More of [TasksPage.tsx]: labels, badges, sections, filter options *)

Module TasksPageViews.

Import TasksApi TasksPage.

(** [formatBadgeLabel]; [toLowerCase] is the runtime's. *)
Definition formatBadgeLabel (toLowerCase : jsstring -> jsstring)
    (value : jsstring) : jsstring :=
  toLowerCase (replaceAll [95] [32] (trim value)).

(** The variants of a [Badge]. *)
Inductive BadgeVariant :=
| vDefault | vSecondary | vDestructive | vOutline | vSuccess.

Definition relationVariant (relation : RunLibraryRelation) : BadgeVariant :=
  match relation with
  | used => vOutline
  | created => vSecondary
  | promoted => vDefault
  | superseded => vDestructive
  end.

(** The memory section of [RunDetailDialog]: one block per key of
    [grouped], in key order, except that a key without links renders
    nothing ([if (!links.length) return null]); each block shows its
    relation and its links. *)
Definition memory_sections (memory_links : list RunMemoryLinkPublic)
    : list (RunLibraryRelation * list RunMemoryLinkPublic) :=
  filter (fun block => negb (length (snd block) =? 0)%nat)
         (map (fun relation => (relation, grouped memory_links relation))
              group_keys).

(** [(data?.memory_links?.length ?? 0) === 0]: the "No memory links
    recorded" box is shown. *)
Definition no_memory_links (memory_links : list RunMemoryLinkPublic) : bool :=
  (length memory_links =? 0)%nat.

(** [keys.add(k)] on a [Set<string>], kept in insertion order. *)
Definition set_add (k : jsstring) (keys : list jsstring) : list jsstring :=
  if existsb (streq k) keys then keys else keys ++ [k].

(** [workflowKeys]: the options of the workflow filter. *)
Definition workflowKeys (localeCompare : jsstring -> jsstring -> Z)
    (tasks : list TaskPublic) : list jsstring :=
  sort localeCompare
    (fold_left
       (fun keys task =>
          if truthy (workflow_key task)
          then set_add (workflow_key task) keys
          else keys)
       tasks []).

End TasksPageViews.

(** ** More of [LibraryList.tsx]: groups, the items request *)

Module LibraryGroups.

Import LibraryApi TasksPage TasksPageViews.

(** [item.workflow_key || "(none)"] *)
Definition group_key (item : LibraryItemPublic) : jsstring :=
  if truthy (workflow_key item) then workflow_key item else u "(none)".

(** The items that go under the key [k]. *)
Definition has_key (k : jsstring) (item : LibraryItemPublic) : bool :=
  streq (group_key item) k.

(** *** Earlier revision: [groupByWorkflowKey]

    The [Map] is an association list in insertion order; [list.push(item)]
    on the array that [map.get(key)] returns changes the entry in place. *)
Fixpoint add_to_group (key : jsstring) (item : LibraryItemPublic)
    (map : list (jsstring * list LibraryItemPublic))
    : list (jsstring * list LibraryItemPublic) :=
  match map with
  | [] => [(key, [item])]
  | (k, list) :: rest =>
      if streq k key then (k, list ++ [item]) :: rest
      else (k, list) :: add_to_group key item rest
  end.

Definition groupByWorkflowKey (localeCompare : jsstring -> jsstring -> Z)
    (items : list LibraryItemPublic)
    : list (jsstring * list LibraryItemPublic) :=
  sort (fun a b => localeCompare (fst a) (fst b))
       (fold_left (fun map item => add_to_group (group_key item) item map)
                  items []).

(** *** Later revision: [bucketNameByKey] and [groupByBucket] *)

Record BucketGroup := {
  workflowKey : jsstring;
  bucketName : jsstring;
  items : list LibraryItemPublic
}.

(** [Map<string, string>]: [get] and [set]. *)
Fixpoint map_get (k : jsstring) (map : list (jsstring * jsstring))
    : option jsstring :=
  match map with
  | [] => None
  | (k', v) :: rest => if streq k' k then Some v else map_get k rest
  end.

Fixpoint map_set (k v : jsstring) (map : list (jsstring * jsstring))
    : list (jsstring * jsstring) :=
  match map with
  | [] => [(k, v)]
  | (k', v') :: rest =>
      if streq k' k then (k', v) :: rest else (k', v') :: map_set k v rest
  end.

Definition bucketNameByKey (buckets : list WorkflowKeyCount)
    : list (jsstring * jsstring) :=
  fold_left (fun map b => map_set (wk_workflow_key b) (bucket_name b) map)
            buckets [].

(** [existing.items.push(item)] or [map.set(workflowKey, {...})]. *)
Fixpoint add_to_bucket (key name : jsstring) (item : LibraryItemPublic)
    (map : list BucketGroup) : list BucketGroup :=
  match map with
  | [] => [{| workflowKey := key; bucketName := name; items := [item] |}]
  | g :: rest =>
      if streq (workflowKey g) key
      then {| workflowKey := workflowKey g; bucketName := bucketName g;
              items := items g ++ [item] |} :: rest
      else g :: add_to_bucket key name item rest
  end.

Section GroupByBucket.

Variables toLowerCase toUpperCase : jsstring -> jsstring.
Variable localeCompare : jsstring -> jsstring -> Z.

(** [bucketNameByKey.get(workflowKey) || humanizeWorkflowKey(workflowKey)] *)
Definition bucket_name_for (names : list (jsstring * jsstring))
    (key : jsstring) : jsstring :=
  match map_get key names with
  | Some name =>
      if truthy name then name
      else humanizeWorkflowKey toLowerCase toUpperCase key
  | None => humanizeWorkflowKey toLowerCase toUpperCase key
  end.

(** The [Map] when the loop over the items has ended. *)
Definition bucket_map (names : list (jsstring * jsstring))
    (items_ : list LibraryItemPublic) : list BucketGroup :=
  fold_left
    (fun map item =>
       let key := group_key item in
       let name := bucket_name_for names key in
       add_to_bucket key name item map)
    items_ [].

Definition groupByBucket (items_ : list LibraryItemPublic)
    (names : list (jsstring * jsstring)) : list BucketGroup :=
  sort (fun a b => localeCompare (bucketName a) (bucketName b))
       (bucket_map names items_).

End GroupByBucket.

(** *** The items request of the page *)

(** [onValueChange] of the bucket select: [v === "all" ? "" : v]. *)
Definition onBucketChange (v : jsstring) : jsstring :=
  if streq v (u "all") then [] else v.

(** The [queryFn] of [itemsQuery], later revision. *)
Definition itemsRequest (workflowKey q : jsstring) : Query :=
  readLibraryItems
    {| p_workflow_key := Some workflowKey;
       p_kind := None;
       p_q := Some q;
       p_current_only := Some true;
       p_skip := Some 0%Z;
       p_limit := Some 200%Z |}.

End LibraryGroups.

(** ** [vite.config.ts]: the base path *)

Module ViteConfig.

(** [s.endsWith(p)] *)
Definition ends_with (p s : jsstring) : bool := starts_with (rev p) (rev s).

(** [normalizedBase], from the value of [VITE_BASE_PATH] in the
    environment ([None] when it is not set). *)
Definition normalizedBase (VITE_BASE_PATH : option jsstring) : jsstring :=
  let configuredBase :=
    match trimmed_or_undefined VITE_BASE_PATH with
    | Some base => base
    | None => u "/"
    end in
  let prefixedBase :=
    if starts_with (u "/") configuredBase then configuredBase
    else u "/" ++ configuredBase in
  if ends_with (u "/") prefixedBase then prefixedBase
  else prefixedBase ++ u "/".

End ViteConfig.

(** ** Sample data *)

Module Samples.

Import TasksApi TasksPage.

Definition sample_task (t : jsstring) : TaskPublic :=
  {| id := u "t1"; title := t; workflow_key := u "github_api";
     goal := None; acceptance_criteria := None; systems_touched := [];
     risk_level := u "low"; status := u "in_progress";
     created_at := None; last_touched_at := None |}.

Definition sample_state (current draft : jsstring) : RenameState :=
  {| taskTitle := current; isRenamingTitle := true; titleDraft := draft;
     titleError := None; skipBlurCommit := false |}.

(** A date parser for timestamps written as decimal milliseconds. *)
Fixpoint digitsValue (acc : Z) (s : jsstring) : option Z :=
  match s with
  | [] => Some acc
  | c :: s' =>
      if (48 <=? c) && (c <=? 57)
      then digitsValue (10 * acc + Z.of_N (c - 48))%Z s'
      else None
  end.

Definition digitsTime (s : jsstring) : option Z :=
  match s with [] => None | _ => digitsValue 0 s end.

Definition task_at (name key : String.string)
    (touched created : option String.string) : TaskPublic :=
  {| id := u name; title := u name; workflow_key := u key;
     goal := None; acceptance_criteria := None; systems_touched := [];
     risk_level := u "low"; status := u "open";
     created_at := option_map u created;
     last_touched_at := option_map u touched |}.

Definition sample_tasks : list TaskPublic :=
  [ task_at "beta" "db" (Some "100"%string) (Some "50"%string);
    task_at "alpha" "api" None (Some "300"%string);
    task_at "delta" "db" (Some "soon"%string) (Some "900"%string);
    task_at "gamma" "db" (Some ""%string) (Some "100"%string);
    task_at "alpha" "db" None None ].

(** A small library history: an item, its replacement, a second attempt
    on the replaced item (which conflicts), and a replacement of the
    replacement. *)
Definition note (t : String.string) : LibraryStore.NewFields :=
  {| LibraryStore.n_workflow_key := u "foo";
     LibraryStore.n_kind := LibraryApi.recipe;
     LibraryStore.n_title := u t;
     LibraryStore.n_body := u "body";
     LibraryStore.n_tags := [];
     LibraryStore.n_source_refs := [];
     LibraryStore.n_promotion_mode := LibraryApi.auto |}.

Definition sample_history : list LibraryStore.Op :=
  [ LibraryStore.Create 1 (note "A");
    LibraryStore.Create 2 (note "X");
    LibraryStore.Supersede 3 0 (note "B");
    LibraryStore.Supersede 4 0 (note "B2");
    LibraryStore.Supersede 5 2 (note "C") ]%Z.

(** A text search by title, and the request of the library page. *)
Definition title_is (q : jsstring) (it : LibraryStore.LibraryItem) : bool :=
  streq (LibraryStore.title it) q.

Definition library_page_params (workflowKey q : jsstring)
    : LibraryApi.ReadLibraryItemsParams :=
  {| LibraryApi.p_workflow_key := Some workflowKey;
     LibraryApi.p_kind := None;
     LibraryApi.p_q := Some q;
     LibraryApi.p_current_only := Some true;
     LibraryApi.p_skip := Some 0%Z;
     LibraryApi.p_limit := Some 200%Z |}.

(** The same request for pages of one item. *)
Definition library_narrow_params (workflowKey q : jsstring) (skip : Z)
    : LibraryApi.ReadLibraryItemsParams :=
  {| LibraryApi.p_workflow_key := Some workflowKey;
     LibraryApi.p_kind := None;
     LibraryApi.p_q := Some q;
     LibraryApi.p_current_only := Some true;
     LibraryApi.p_skip := Some skip;
     LibraryApi.p_limit := Some 1%Z |}.

(** A failed query: not loading, in error, with the error it carries. *)
Definition failed (A : Type) (stale : option A) (msg : String.string)
    : QueryResult A :=
  {| isLoading := false; isError := true; data := stale;
     error := Some {| message := u msg |} |}.

End Samples.

(** ** Sample library data *)

Module LibrarySamples.

Import LibraryApi.

Definition card (name key : String.string) : LibraryItemPublic :=
  {| id := u name; workflow_key := u key; kind := recipe; title := u name;
     body_mdc := u "body"; tags := []; source_refs := [];
     promotion_mode := auto; created_at := None; last_used_at := None;
     superseded_by_id := None |}.

Definition sample_cards : list LibraryItemPublic :=
  [ card "c1" "github_api"; card "c2" ""; card "c3" "deploy_db";
    card "c4" "github_api"; card "c5" "" ].

Definition bucket (key name : String.string) (n : Z) : WorkflowKeyCount :=
  {| wk_workflow_key := u key; bucket_name := u name; wk_count := n |}.

Definition sample_buckets : list WorkflowKeyCount :=
  [ bucket "github_api" "Old name" 1; bucket "deploy_db" "" 1;
    bucket "github_api" "GitHub API" 2 ]%Z.

End LibrarySamples.

(* ================================================================== *)
(** * Part II.  Properties                                              *)
(* ================================================================== *)

Unset Implicit Arguments.

(** ** Facts about strings *)

Module JsFacts.

Lemma streq_spec (a b : jsstring) : streq a b = true <-> a = b.
Proof.
  revert b; induction a as [|x a IH]; intros [|y b]; simpl;
    try (split; [discriminate | congruence]); try tauto.
  rewrite andb_true_iff, N.eqb_eq, IH.
  split; [intros [-> ->]; reflexivity | intros E; inversion E; auto].
Qed.

Lemma streq_refl (a : jsstring) : streq a a = true.
Proof. now apply streq_spec. Qed.

Lemma streq_false (a b : jsstring) : streq a b = false <-> a <> b.
Proof.
  rewrite <- streq_spec. destruct (streq a b); split; congruence.
Qed.

Lemma truthy_false (s : jsstring) : truthy s = false <-> s = [].
Proof. destruct s; simpl; split; congruence. Qed.

Lemma trimStart_app (l r : jsstring) (c : code_unit) :
  isWhiteSpace c = false -> trimStart (l ++ c :: r) = trimStart l ++ c :: r.
Proof.
  intros Hc. induction l as [|x l IH]; simpl.
  - now rewrite Hc.
  - destruct (isWhiteSpace x); [exact IH | reflexivity].
Qed.

Lemma trimStart_blank (s : jsstring) :
  trimStart s = [] <-> forallb isWhiteSpace s = true.
Proof.
  induction s as [|c s IH]; simpl; [tauto|].
  destruct (isWhiteSpace c); simpl; [exact IH | split; discriminate].
Qed.

Lemma trimStart_head (s : jsstring) (c : code_unit) (t : jsstring) :
  trimStart s = c :: t -> isWhiteSpace c = false.
Proof.
  induction s as [|x s IH]; simpl; [discriminate|].
  destruct (isWhiteSpace x) eqn:E; [exact IH | congruence].
Qed.

Lemma trimStart_idem (s : jsstring) : trimStart (trimStart s) = trimStart s.
Proof.
  destruct (trimStart s) as [|c t] eqn:E; [reflexivity|].
  simpl. now rewrite (trimStart_head _ _ _ E).
Qed.

Lemma trimEnd_cons (c : code_unit) (t : jsstring) :
  isWhiteSpace c = false -> trimEnd (c :: t) = c :: trimEnd t.
Proof.
  intros Hc. unfold trimEnd. simpl rev.
  rewrite (trimStart_app _ [] c Hc), rev_app_distr. reflexivity.
Qed.

Lemma trimEnd_idem (s : jsstring) : trimEnd (trimEnd s) = trimEnd s.
Proof.
  unfold trimEnd. now rewrite rev_involutive, trimStart_idem.
Qed.

Lemma trim_idem (s : jsstring) : trim (trim s) = trim s.
Proof.
  unfold trim. destruct (trimStart s) as [|c t] eqn:E; [reflexivity|].
  pose proof (trimStart_head _ _ _ E) as Hc.
  rewrite (trimEnd_cons _ _ Hc). simpl. rewrite Hc.
  rewrite <- (trimEnd_cons _ _ Hc). apply trimEnd_idem.
Qed.

Lemma forallb_rev (f : code_unit -> bool) (s : jsstring) :
  forallb f (rev s) = forallb f s.
Proof.
  induction s as [|c s IH]; simpl; [reflexivity|].
  rewrite forallb_app, IH. simpl. rewrite andb_true_r. apply andb_comm.
Qed.

Lemma trimEnd_blank (s : jsstring) :
  trimEnd s = [] <-> forallb isWhiteSpace s = true.
Proof.
  unfold trimEnd. rewrite <- (forallb_rev isWhiteSpace s), <- trimStart_blank.
  destruct (trimStart (rev s)) as [|c t]; [simpl; tauto|].
  split; [|discriminate]. intros H.
  apply (f_equal (@length code_unit)) in H. rewrite length_rev in H.
  discriminate.
Qed.

(** A string trims to the empty string exactly when it is white space
    only. *)
Lemma trim_blank (s : jsstring) :
  trim s = [] <-> forallb isWhiteSpace s = true.
Proof.
  unfold trim. split.
  - intros H. apply trimStart_blank.
    destruct (trimStart s) as [|c t] eqn:E; [reflexivity|].
    rewrite (trimEnd_cons _ _ (trimStart_head _ _ _ E)) in H. discriminate.
  - intros H. apply trimStart_blank in H. now rewrite H.
Qed.

Lemma trimmed_or_undefined_some (x : option jsstring) (s : jsstring) :
  trimmed_or_undefined x = Some s <->
  exists raw, x = Some raw /\ s = trim raw /\ s <> [].
Proof.
  unfold trimmed_or_undefined. destruct x as [raw|]; simpl.
  - destruct (trim raw) as [|c t] eqn:E; simpl.
    + split; [discriminate|]. intros (r & Hr & -> & Hne).
      inversion Hr; subst. congruence.
    + split.
      * intros H; inversion H; subst. exists raw. repeat split; congruence.
      * intros (r & Hr & -> & _). inversion Hr; subst. now rewrite E.
  - split; [discriminate|]. intros (r & Hr & _). discriminate.
Qed.

Lemma trimmed_or_undefined_blank (raw : jsstring) :
  forallb isWhiteSpace raw = true ->
  trimmed_or_undefined (Some raw) = trimmed_or_undefined None.
Proof.
  intros H. apply trim_blank in H. unfold trimmed_or_undefined. simpl.
  now rewrite H.
Qed.

Lemma trimmed_or_undefined_trim (x : option jsstring) :
  trimmed_or_undefined (option_map trim x) = trimmed_or_undefined x.
Proof.
  unfold trimmed_or_undefined. destruct x as [raw|]; simpl; [|reflexivity].
  now rewrite trim_idem.
Qed.

Lemma filter_all (A : Type) (f : A -> bool) (l : list A) :
  forallb f l = true -> filter f l = l.
Proof.
  induction l as [|x l IH]; simpl; [reflexivity|].
  destruct (f x); simpl; [|discriminate]. intros H. now rewrite IH.
Qed.

Lemma StronglySorted_impl (A : Type) (R R' : A -> A -> Prop) (l : list A) :
  (forall a b, R a b -> R' a b) -> StronglySorted R l -> StronglySorted R' l.
Proof.
  intros H. induction 1 as [|x l Hs IH Hx]; constructor; [exact IH|].
  eapply Forall_impl; [|exact Hx]. intros b. apply H.
Qed.

End JsFacts.

(** ** The list requests *)

Module RequestProps.

Import JsFacts.

Lemma trimmed_or_undefined_sent (x : option jsstring) :
  sent_filter x (trimmed_or_undefined x).
Proof.
  destruct x as [raw|]; simpl; [|reflexivity].
  destruct (blank raw) eqn:B.
  - now apply trimmed_or_undefined_blank.
  - unfold trimmed_or_undefined; simpl.
    destruct (trim raw) as [|c t] eqn:E; [|reflexivity].
    apply trim_blank in E. unfold blank in B. congruence.
Qed.

(** C8.  In the task and library list requests the text filters
    (workflow_key, status and q for tasks; workflow_key and q for the
    library) are sent trimmed, a filter that is empty after trimming is
    left out, and the other parameters are passed through; so a
    white-space-only filter gives the very request that no filter gives. *)
Theorem list_filters_whitespace_insensitive :
  (forall p : TasksApi.ReadTasksParams,
      let r := TasksApi.readTasks p in
      sent_filter (TasksApi.p_workflow_key p) (TasksApi.q_workflow_key r)
      /\ sent_filter (TasksApi.p_status p) (TasksApi.q_status r)
      /\ sent_filter (TasksApi.p_q p) (TasksApi.q_q r)
      /\ TasksApi.q_skip r = TasksApi.p_skip p
      /\ TasksApi.q_limit r = TasksApi.p_limit p)
  /\ (forall p : LibraryApi.ReadLibraryItemsParams,
      let r := LibraryApi.readLibraryItems p in
      sent_filter (LibraryApi.p_workflow_key p) (LibraryApi.q_workflow_key r)
      /\ sent_filter (LibraryApi.p_q p) (LibraryApi.q_q r)
      /\ LibraryApi.q_kind r = LibraryApi.p_kind p
      /\ LibraryApi.q_current_only r = LibraryApi.p_current_only p
      /\ LibraryApi.q_skip r = LibraryApi.p_skip p
      /\ LibraryApi.q_limit r = LibraryApi.p_limit p)
  /\ (forall ws1 ws2 ws3 skip limit,
      blank ws1 = true -> blank ws2 = true -> blank ws3 = true ->
      TasksApi.readTasks
        (TasksApi.Build_ReadTasksParams (Some ws1) (Some ws2) (Some ws3)
                                        skip limit)
      = TasksApi.readTasks
          (TasksApi.Build_ReadTasksParams None None None skip limit))
  /\ (forall ws1 ws2 kind current_only skip limit,
      blank ws1 = true -> blank ws2 = true ->
      LibraryApi.readLibraryItems
        (LibraryApi.Build_ReadLibraryItemsParams (Some ws1) kind (Some ws2)
                                                 current_only skip limit)
      = LibraryApi.readLibraryItems
          (LibraryApi.Build_ReadLibraryItemsParams None kind None
                                                   current_only skip limit)).
Proof.
  repeat split; try apply trimmed_or_undefined_sent.
  - intros ws1 ws2 ws3 skip limit B1 B2 B3.
    unfold TasksApi.readTasks; simpl.
    now rewrite !trimmed_or_undefined_blank by assumption.
  - intros ws1 ws2 kind current_only skip limit B1 B2.
    unfold LibraryApi.readLibraryItems; simpl.
    now rewrite !trimmed_or_undefined_blank by assumption.
Qed.

Lemma list_filters_whitespace_insensitive_witness :
  TasksApi.readTasks
    (TasksApi.Build_ReadTasksParams (Some (u "  ")) (Some [9; 10])
                                    (Some []) (Some 0%Z) (Some 100%Z))
  = TasksApi.readTasks
      (TasksApi.Build_ReadTasksParams None None None (Some 0%Z) (Some 100%Z))
  /\ LibraryApi.readLibraryItems
       (LibraryApi.Build_ReadLibraryItemsParams
          (Some []) None (Some (u " ")) (Some true) (Some 0%Z) (Some 200%Z))
     = LibraryApi.readLibraryItems
         (LibraryApi.Build_ReadLibraryItemsParams
            None None None (Some true) (Some 0%Z) (Some 200%Z)).
Proof.
  destruct list_filters_whitespace_insensitive as (_ & _ & HT & HL).
  split.
  - apply HT; reflexivity.
  - apply HL; reflexivity.
Defined.

End RequestProps.

(** ** Renaming a task *)

Module RenameProps.

Import JsFacts TasksApi TasksPage Samples.

Lemma commitRename_blank (st : RenameState) :
  blank (titleDraft st) = true ->
  commitRename st =
    ({| taskTitle := taskTitle st;
        isRenamingTitle := isRenamingTitle st;
        titleDraft := titleDraft st;
        titleError := Some msg_empty_title;
        skipBlurCommit := skipBlurCommit st |}, None).
Proof.
  intros B. apply trim_blank in B. unfold commitRename. now rewrite B.
Qed.

Lemma commitRename_same (st : RenameState) :
  blank (titleDraft st) = false ->
  trim (titleDraft st) = trim (taskTitle st) ->
  commitRename st = (cancelRename st, None).
Proof.
  intros B E. unfold commitRename.
  destruct (trim (titleDraft st)) as [|c t] eqn:T.
  - apply trim_blank in T. unfold blank in B. congruence.
  - rewrite <- E, streq_refl. reflexivity.
Qed.

Lemma commitRename_changed (st : RenameState) :
  blank (titleDraft st) = false ->
  trim (titleDraft st) <> trim (taskTitle st) ->
  commitRename st = (st, Some (trim (titleDraft st))).
Proof.
  intros B E. unfold commitRename.
  destruct (trim (titleDraft st)) as [|c t] eqn:T.
  - apply trim_blank in T. unfold blank in B. congruence.
  - apply streq_false in E. rewrite E. reflexivity.
Qed.

(** *** The render after a handler *)

Lemma settle_quiet (task_title : jsstring) (prev next : RenameState) :
  isRenamingTitle prev = isRenamingTitle next ->
  settle task_title task_title prev next = next.
Proof.
  intros E. unfold settle. rewrite streq_refl, E.
  now destruct (isRenamingTitle next).
Qed.

Lemma settle_flipped (task_title : jsstring) (prev next : RenameState) :
  isRenamingTitle prev <> isRenamingTitle next ->
  settle task_title task_title prev next = syncTitleEffect task_title next.
Proof.
  intros E. unfold settle. rewrite streq_refl.
  destruct (isRenamingTitle prev), (isRenamingTitle next);
    try reflexivity; congruence.
Qed.

Lemma settle_renaming (prev_title next_title : jsstring)
    (prev next : RenameState) :
  isRenamingTitle (settle prev_title next_title prev next)
  = isRenamingTitle next.
Proof. unfold settle. now destruct (_ || _). Qed.

Lemma refetched_title (old_title new_title : jsstring) (st : RenameState) :
  taskTitle st = old_title \/ taskTitle st = new_title ->
  taskTitle (refetched old_title new_title st) = new_title.
Proof.
  unfold refetched, settle. rewrite eqb_reflx. simpl. rewrite orb_false_r.
  destruct (streq old_title new_title) eqn:E; simpl; [|reflexivity].
  apply streq_spec in E. intros [H|H]; congruence.
Qed.

(** A successful rename, before the task list is fetched again: the error
    is cleared and renaming has ended; the title is the answered one only
    if the dialog was not renaming, else the effect has put the prop
    back. *)
Lemma renameFlow_success
    (updateTaskTitle : jsstring -> option TaskPublic)
    (task_title : jsstring) (st : RenameState) (updated : TaskPublic) :
  blank (titleDraft st) = false ->
  trim (titleDraft st) <> trim (taskTitle st) ->
  updateTaskTitle (trim (titleDraft st)) = Some updated ->
  let st1 := renameFlow updateTaskTitle task_title st in
  titleError st1 = None
  /\ isRenamingTitle st1 = false
  /\ taskTitle st1
     = (if isRenamingTitle st then task_title else title updated).
Proof.
  intros B E Hf st1. subst st1. unfold renameFlow.
  rewrite (commitRename_changed st B E), Hf.
  destruct (isRenamingTitle st) eqn:R.
  - rewrite settle_flipped by (simpl; congruence). now repeat split.
  - rewrite settle_quiet by (simpl; congruence). now repeat split.
Qed.

(** C3.  A draft that is empty or white space only is rejected with the
    empty-title error: no update request is started and the title stays as
    it was, whatever the server would answer.  A draft whose trimmed value
    is non-empty and differs from the current trimmed title starts an
    update request carrying the trimmed title.  When the server answers
    with the updated task, the error is cleared and renaming ends; until
    the task list is fetched again the dialog shows the title of its prop
    (or the answered title, if it was not renaming), and once the list
    delivers the updated task it shows that task's title. *)
Theorem rename_validation (st : RenameState) :
  (blank (titleDraft st) = true ->
     snd (commitRename st) = None
     /\ titleError (fst (commitRename st)) = Some msg_empty_title
     /\ taskTitle (fst (commitRename st)) = taskTitle st
     /\ forall updateTaskTitle task_title,
          renameFlow updateTaskTitle task_title st = fst (commitRename st))
  /\ (blank (titleDraft st) = false ->
      trim (titleDraft st) <> trim (taskTitle st) ->
      snd (commitRename st) = Some (trim (titleDraft st))
      /\ forall updateTaskTitle task_title updated,
           updateTaskTitle (trim (titleDraft st)) = Some updated ->
           let st1 := renameFlow updateTaskTitle task_title st in
           titleError st1 = None
           /\ isRenamingTitle st1 = false
           /\ taskTitle st1
              = (if isRenamingTitle st then task_title else title updated)
           /\ taskTitle (refetched task_title (title updated) st1)
              = title updated).
Proof.
  split.
  - intros B. unfold renameFlow. rewrite (commitRename_blank st B). simpl.
    repeat split; try reflexivity.
    intros f task_title. now apply settle_quiet.
  - intros B E. split; [now rewrite (commitRename_changed st B E)|].
    intros f task_title updated Hf st1.
    destruct (renameFlow_success f task_title st updated B E Hf)
      as (H1 & H2 & H3). fold st1 in H1, H2, H3.
    repeat split; try assumption.
    apply refetched_title. rewrite H3.
    destruct (isRenamingTitle st); [now left|now right].
Qed.

Lemma rename_validation_witness :
  renameFlow (fun t => Some (sample_task t)) (u "Deploy")
    (sample_state (u "Deploy") (u "   "))
  = fst (commitRename (sample_state (u "Deploy") (u "   ")))
  /\ snd (commitRename (sample_state (u "Deploy") (u " Ship it ")))
     = Some (u "Ship it")
  /\ taskTitle
       (renameFlow (fun t => Some (sample_task t)) (u "Deploy")
          (sample_state (u "Deploy") (u " Ship it ")))
     = u "Deploy"
  /\ taskTitle
       (refetched (u "Deploy") (u "Ship it")
          (renameFlow (fun t => Some (sample_task t)) (u "Deploy")
             (sample_state (u "Deploy") (u " Ship it "))))
     = u "Ship it".
Proof.
  destruct (rename_validation (sample_state (u "Deploy") (u "   ")))
    as [Hblank _].
  destruct (rename_validation (sample_state (u "Deploy") (u " Ship it ")))
    as [_ Hsend].
  destruct (Hblank eq_refl) as (_ & _ & _ & Hflow).
  destruct (Hsend eq_refl ltac:(discriminate)) as (Hreq & Hdone).
  destruct (Hdone (fun t => Some (sample_task t)) (u "Deploy")
              (sample_task (u "Ship it")) eq_refl) as (_ & _ & Hshown & Hnew).
  split; [apply Hflow|]. split; [exact Hreq|].
  split; [exact Hshown|exact Hnew].
Defined.

(** Before the task list is fetched again the dialog still compares with
    the title of its prop: committing the same draft once more sends the
    same request again. *)
Lemma recommit_before_refetch
    (updateTaskTitle : jsstring -> option TaskPublic)
    (task_title : jsstring) (st : RenameState) (updated : TaskPublic) :
  isRenamingTitle st = true ->
  blank (titleDraft st) = false ->
  trim (titleDraft st) <> trim (taskTitle st) ->
  trim (titleDraft st) <> trim task_title ->
  updateTaskTitle (trim (titleDraft st)) = Some updated ->
  snd (commitRename
         (onChange
            (startRename task_title (renameFlow updateTaskTitle task_title st))
            (titleDraft st)))
  = Some (trim (titleDraft st)).
Proof.
  intros R B E EP Hf. unfold renameFlow.
  rewrite (commitRename_changed st B E), Hf.
  rewrite settle_flipped by (simpl; congruence).
  unfold startRename. rewrite settle_flipped by (simpl; congruence).
  rewrite commitRename_changed; [reflexivity|exact B|exact EP].
Qed.




End RenameProps.

(** ** The memory links of a run, grouped by relation *)

Module RunDetailProps.

Import TasksApi TasksPage.

Lemma relation_eqb_spec (a b : RunLibraryRelation) :
  relation_eqb a b = true <-> a = b.
Proof. destruct a, b; simpl; split; congruence. Qed.

Lemma fold_push (links : list RunMemoryLinkPublic) (groups : Groups)
    (r : RunLibraryRelation) :
  fold_left (fun g link => push g (relation link) link) links groups r
  = groups r ++ filter (of_relation r) links.
Proof.
  revert groups; induction links as [|l links IH]; intros groups; simpl.
  - now rewrite app_nil_r.
  - rewrite IH. unfold push, of_relation.
    destruct (relation_eqb (relation l) r); simpl.
    + now rewrite <- app_assoc.
    + reflexivity.
Qed.

Lemma grouped_filter (links : list RunMemoryLinkPublic)
    (r : RunLibraryRelation) :
  grouped links r = filter (of_relation r) links.
Proof. unfold grouped. now rewrite fold_push. Qed.

Lemma groups_partition (links : list RunMemoryLinkPublic) :
  Permutation
    (filter (of_relation used) links ++ filter (of_relation created) links
     ++ filter (of_relation promoted) links
     ++ filter (of_relation superseded) links)
    links.
Proof.
  induction links as [|l links IH]; [constructor|].
  assert (H : forall r, of_relation r l = relation_eqb (relation l) r)
    by reflexivity.
  cbn [filter]. rewrite !H.
  destruct (relation l); cbn [relation_eqb app].
  - apply perm_skip, IH.
  - symmetry. apply Permutation_cons_app. now symmetry.
  - symmetry. rewrite app_assoc. apply Permutation_cons_app.
    rewrite <- app_assoc. now symmetry.
  - symmetry. rewrite 2 app_assoc. apply Permutation_cons_app.
    rewrite <- 2 app_assoc. now symmetry.
Qed.

(** C4.  The memory links of a run detail are grouped under exactly the
    four keys used, created, promoted, superseded, in this order; the group
    of a relation is the sub-list of the links with that relation, in input
    order (and empty when there is none); so a link is in the group of its
    own relation and in no other, and the four groups together hold every
    link as often as the input does. *)
Theorem links_grouped_by_relation (links : list RunMemoryLinkPublic) :
  group_keys = [used; created; promoted; superseded]
  /\ NoDup group_keys
  /\ (forall r, In r group_keys)
  /\ (forall r, grouped links r = filter (of_relation r) links)
  /\ (forall r link,
       In link (grouped links r) <-> In link links /\ relation link = r)
  /\ (forall r a b, grouped (a ++ b) r = grouped a r ++ grouped b r)
  /\ Permutation (concat (map (grouped links) group_keys)) links.
Proof.
  split; [reflexivity|].
  split.
  { unfold group_keys. repeat constructor; simpl; intuition discriminate. }
  split; [intros []; simpl; tauto|].
  split; [intros r; apply grouped_filter|].
  split.
  { intros r link. rewrite grouped_filter, filter_In. unfold of_relation.
    now rewrite relation_eqb_spec. }
  split.
  { intros r a b. rewrite !grouped_filter. apply filter_app. }
  simpl. rewrite !grouped_filter, app_nil_r. apply groups_partition.
Qed.

End RunDetailProps.

(** ** What is shown when a request fails *)

Module ErrorViewProps.

Import TasksPage LibraryList Samples.

(** The task, run and run-detail views and the rename handler show a fixed
    text for every failure. *)
Lemma tasks_views_generic (A : Type) (q1 q2 : QueryResult A) :
  isLoading q1 = false -> isError q1 = true ->
  isLoading q2 = false -> isError q2 = true ->
  error_text (TasksPage_view q1) = error_text (TasksPage_view q2)
  /\ error_text (TaskDialog_runs_view q1) = error_text (TaskDialog_runs_view q2)
  /\ error_text (RunDetailDialog_view q1) = error_text (RunDetailDialog_view q2).
Proof.
  intros L1 E1 L2 E2.
  unfold TasksPage_view, TaskDialog_runs_view, RunDetailDialog_view.
  rewrite L1, E1, L2, E2. repeat split.
Qed.

Lemma rename_error_generic (st : RenameState) :
  titleError (onError st) = Some msg_rename_failed.
Proof. reflexivity. Qed.

(** C6 does not hold for the library list: both revisions put the message
    of the error object on the page, so two failures with different
    messages are shown differently. *)
Theorem library_error_message_shown :
  error_text (LibraryList_view_v2
                (failed (A:=unit) None "connect ECONNREFUSED 10.0.0.5:5432"))
  = [couldnt "load Library"; u "connect ECONNREFUSED 10.0.0.5:5432"]
  /\ error_text (LibraryList_view_v2
                   (failed (A:=unit) None "connect ECONNREFUSED 10.0.0.5:5432"))
     <> error_text (LibraryList_view_v2
                      (failed (A:=unit) None "401 Unauthorized"))
  /\ error_text (LibraryList_view_v1
                   (failed (Some tt) "connect ECONNREFUSED 10.0.0.5:5432"))
     = [couldnt "load Library"; u "connect ECONNREFUSED 10.0.0.5:5432"]
  /\ error_text (LibraryList_view_v1
                   (failed (Some tt) "connect ECONNREFUSED 10.0.0.5:5432"))
     <> error_text (LibraryList_view_v1 (failed (Some tt) "401 Unauthorized")).
Proof.
  repeat split; try reflexivity; vm_compute; discriminate.
Qed.

End ErrorViewProps.

(** ** The bucket name of a workflow key *)

Module HumanizeProps.

Import JsFacts TasksPage.

Lemma split_no_sep (sep : code_unit) (t : jsstring) :
  ~ In sep t -> split sep t = [t].
Proof.
  induction t as [|c t IH]; simpl; [reflexivity|]. intros H.
  destruct (N.eqb_spec c sep) as [->|_]; [tauto|].
  rewrite IH by tauto. reflexivity.
Qed.

Lemma split_app_sep (sep : code_unit) (t s : jsstring) :
  ~ In sep t -> split sep (t ++ sep :: s) = t :: split sep s.
Proof.
  induction t as [|c t IH]; simpl; intros H.
  - now rewrite N.eqb_refl.
  - destruct (N.eqb_spec c sep) as [->|_]; [tauto|].
    rewrite IH by tauto. reflexivity.
Qed.

(** The tokens of a split do not contain the separator. *)
Lemma split_tokens (sep : code_unit) (s : jsstring) :
  Forall (fun t => ~ In sep t) (split sep s).
Proof.
  induction s as [|c s IH]; simpl.
  - repeat constructor. auto.
  - destruct (N.eqb_spec c sep) as [->|Hc].
    + constructor; auto.
    + destruct (split sep s) as [|t ts].
      * repeat constructor. simpl. intuition congruence.
      * inversion IH; subst. constructor; [|assumption].
        simpl. intuition congruence.
Qed.

(** Splitting undoes joining on a separator that the tokens are free
    of. *)
Lemma split_join (sep : code_unit) (toks : list jsstring) :
  toks <> [] -> Forall (fun t => ~ In sep t) toks ->
  split sep (join [sep] toks) = toks.
Proof.
  induction toks as [|t toks IH]; [congruence|]. intros _ H.
  inversion H as [|? ? Ht Htoks]; subst.
  destruct toks as [|t2 rest].
  - simpl. now apply split_no_sep.
  - change (join [sep] (t :: t2 :: rest))
      with (t ++ sep :: join [sep] (t2 :: rest)).
    rewrite split_app_sep by assumption.
    rewrite IH; [reflexivity | discriminate | assumption].
Qed.

Section CaseMapping.

Variables toLowerCase toUpperCase : jsstring -> jsstring.

Lemma humanizePart_spec (part : jsstring) :
  humanizePart toLowerCase toUpperCase part
  = spec_token toLowerCase toUpperCase part.
Proof.
  unfold humanizePart, spec_token, spec_acronym, spec_capitalize,
    charAt0, slice_from.
  destruct (streq (toLowerCase part) (u "github")); [reflexivity|].
  destruct (streq (toLowerCase part) (u "api")); [reflexivity|].
  destruct (streq (toLowerCase part) (u "db")); reflexivity.
Qed.

Lemma humanize_tokens (key : jsstring) :
  humanizeWorkflowKey toLowerCase toUpperCase key
  = join (u " ")
      (map (spec_token toLowerCase toUpperCase)
           (filter truthy (split 95 key))).
Proof.
  unfold humanizeWorkflowKey. f_equal. apply map_ext, humanizePart_spec.
Qed.

Lemma humanize_squeezed (key : jsstring) :
  filter truthy (split 95 key) <> [] ->
  humanizeWorkflowKey toLowerCase toUpperCase key
  = spec_bucket_name toLowerCase toUpperCase (squeeze key).
Proof.
  intros Hne. rewrite humanize_tokens. unfold spec_bucket_name, squeeze.
  change (u "_") with [95]. rewrite split_join; [reflexivity|assumption|].
  pose proof (split_tokens 95 key) as H. rewrite Forall_forall in *.
  intros t Ht. apply filter_In in Ht. now apply H.
Qed.

End CaseMapping.

(** C2 as stated fails: the key [a__b] has an empty token, which the code
    drops and the stated derivation keeps, so the code gives "A B" where
    the derivation gives "A  B". *)
Lemma humanize_empty_token_counterexample :
  humanizeWorkflowKey asciiLowerCase asciiUpperCase (u "a__b") = u "A B"
  /\ spec_bucket_name asciiLowerCase asciiUpperCase (u "a__b") = u "A  B"
  /\ humanizeWorkflowKey asciiLowerCase asciiUpperCase (u "a__b")
     <> spec_bucket_name asciiLowerCase asciiUpperCase (u "a__b").
Proof.
  repeat split; try reflexivity. vm_compute. discriminate.
Qed.

(** C2, amended.  The bucket name is obtained by splitting the key on [_],
    dropping the empty tokens, turning each remaining token into its
    acronym when its lower-case form is github, api or db and otherwise
    upper-casing its first code unit, and joining with one space.  This is
    the stated derivation applied to the key without its empty tokens; it
    is the stated derivation itself for a key with no empty token, and the
    empty string for a key made of underscores only. *)
Theorem humanize_bucket_name (toLowerCase toUpperCase : jsstring -> jsstring)
    (key : jsstring) :
  humanizeWorkflowKey toLowerCase toUpperCase key
  = join (u " ")
      (map (spec_token toLowerCase toUpperCase)
           (filter truthy (split 95 key)))
  /\ (forallb truthy (split 95 key) = true ->
      humanizeWorkflowKey toLowerCase toUpperCase key
      = spec_bucket_name toLowerCase toUpperCase key)
  /\ (filter truthy (split 95 key) <> [] ->
      humanizeWorkflowKey toLowerCase toUpperCase key
      = spec_bucket_name toLowerCase toUpperCase (squeeze key))
  /\ (filter truthy (split 95 key) = [] ->
      humanizeWorkflowKey toLowerCase toUpperCase key = []).
Proof.
  split; [apply humanize_tokens|]. split; [|split].
  - intros H. rewrite humanize_tokens. unfold spec_bucket_name.
    now rewrite filter_all.
  - apply humanize_squeezed.
  - intros H. unfold humanizeWorkflowKey. now rewrite H.
Qed.

Lemma humanize_bucket_name_witness :
  humanizeWorkflowKey asciiLowerCase asciiUpperCase (u "github_api")
  = spec_bucket_name asciiLowerCase asciiUpperCase (u "github_api")
  /\ humanizeWorkflowKey asciiLowerCase asciiUpperCase (u "_deploy__db_")
     = spec_bucket_name asciiLowerCase asciiUpperCase (u "deploy_db")
  /\ humanizeWorkflowKey asciiLowerCase asciiUpperCase (u "__") = [].
Proof.
  split; [|split].
  - apply (proj1 (proj2 (humanize_bucket_name asciiLowerCase asciiUpperCase
             (u "github_api")))). reflexivity.
  - apply (proj1 (proj2 (proj2 (humanize_bucket_name asciiLowerCase
             asciiUpperCase (u "_deploy__db_"))))). vm_compute. discriminate.
  - apply (proj2 (proj2 (proj2 (humanize_bucket_name asciiLowerCase
             asciiUpperCase (u "__"))))). reflexivity.
Defined.

End HumanizeProps.

(** ** The displayed task list *)

Module VisibleTasksProps.

Import JsFacts TasksApi TasksPage Samples.

#[local] Open Scope Z_scope.

(** *** The stable sort *)

Section SortFacts.

Variable A : Type.
Variable compareFn : A -> A -> Z.

Hypothesis compare_total : forall a b, 0 < compareFn a b -> compareFn b a <= 0.
Hypothesis compare_trans :
  forall a b c, compareFn a b <= 0 -> compareFn b c <= 0 -> compareFn a c <= 0.

Lemma insert_perm (x : A) (l : list A) :
  Permutation (insert compareFn x l) (x :: l).
Proof.
  induction l as [|y l IH]; simpl; [reflexivity|].
  destruct (compareFn x y <=? 0); [reflexivity|].
  rewrite IH. apply perm_swap.
Qed.

Lemma sort_perm (l : list A) : Permutation (sort compareFn l) l.
Proof.
  induction l as [|x l IH]; simpl; [reflexivity|].
  rewrite insert_perm. now constructor.
Qed.

Lemma insert_sorted (x : A) (l : list A) :
  StronglySorted (ordered compareFn) l ->
  StronglySorted (ordered compareFn) (insert compareFn x l).
Proof.
  induction 1 as [|y l Hs IH Hy]; simpl.
  - repeat constructor.
  - destruct (Z.leb_spec (compareFn x y) 0) as [Hle|Hgt].
    + constructor; [now constructor|].
      constructor; [exact Hle|].
      eapply Forall_impl; [|exact Hy]. intros z Hz.
      exact (compare_trans x y z Hle Hz).
    + constructor; [exact IH|].
      apply (Permutation_Forall (Permutation_sym (insert_perm x l))).
      constructor; [|exact Hy]. now apply compare_total.
Qed.

Lemma sort_sorted (l : list A) :
  StronglySorted (ordered compareFn) (sort compareFn l).
Proof.
  induction l as [|x l IH]; simpl; [constructor|]. now apply insert_sorted.
Qed.

End SortFacts.

(** *** The comparator of the task list *)

Section Comparator.

Variable getTime : jsstring -> option Z.
Variable localeCompare : jsstring -> jsstring -> Z.

Lemma score_recency (task : TaskPublic) :
  score getTime task = spec_recency getTime task.
Proof.
  unfold score, spec_recency, time_or_zero, or_else.
  destruct (last_touched_at task) as [[|c raw]|]; simpl;
    destruct (created_at task) as [[|c' raw']|]; reflexivity.
Qed.

Lemma compareTasks_ordered (a b : TaskPublic) :
  compareTasks getTime localeCompare a b <= 0
  <-> shown_before getTime localeCompare a b.
Proof.
  unfold compareTasks, shown_before. rewrite <- !score_recency.
  destruct (Z.eqb_spec (score getTime b - score getTime a) 0); lia.
Qed.

Hypothesis collate_total :
  forall a b, 0 < localeCompare a b -> localeCompare b a <= 0.
Hypothesis collate_trans :
  forall a b c, localeCompare a b <= 0 -> localeCompare b c <= 0 ->
                localeCompare a c <= 0.

Lemma compareTasks_total (a b : TaskPublic) :
  0 < compareTasks getTime localeCompare a b ->
  compareTasks getTime localeCompare b a <= 0.
Proof.
  unfold compareTasks.
  pose proof (collate_total (title a) (title b)).
  destruct (Z.eqb_spec (score getTime b - score getTime a) 0);
    destruct (Z.eqb_spec (score getTime a - score getTime b) 0); lia.
Qed.

Lemma compareTasks_trans (a b c : TaskPublic) :
  compareTasks getTime localeCompare a b <= 0 ->
  compareTasks getTime localeCompare b c <= 0 ->
  compareTasks getTime localeCompare a c <= 0.
Proof.
  unfold compareTasks.
  pose proof (collate_trans (title a) (title b) (title c)).
  destruct (Z.eqb_spec (score getTime b - score getTime a) 0);
    destruct (Z.eqb_spec (score getTime c - score getTime b) 0);
    destruct (Z.eqb_spec (score getTime c - score getTime a) 0); lia.
Qed.

End Comparator.

(** *** Comparison by code units is a consistent comparator *)

Lemma codeUnitCompare_total (a b : jsstring) :
  0 < codeUnitCompare a b -> codeUnitCompare b a <= 0.
Proof.
  revert b; induction a as [|x a IH]; intros [|y b]; simpl; try lia.
  rewrite (N.compare_antisym x y).
  destruct (N.compare x y); simpl; try lia. apply IH.
Qed.

Lemma codeUnitCompare_trans (a b c : jsstring) :
  codeUnitCompare a b <= 0 -> codeUnitCompare b c <= 0 ->
  codeUnitCompare a c <= 0.
Proof.
  revert b c; induction a as [|x a IH]; intros [|y b] [|z c]; simpl;
    try lia.
  destruct (N.compare_spec x y), (N.compare_spec y z), (N.compare_spec x z);
    subst; try lia.
  apply IH.
Qed.

(** *** The displayed list *)

Lemma filtered_selected (tasks : list TaskPublic) (workflowKey : jsstring) :
  (if streq workflowKey (u "all") then tasks
   else filter (fun task => streq (workflow_key task) workflowKey) tasks)
  = filter (selected workflowKey) tasks.
Proof.
  unfold selected. destruct (streq workflowKey (u "all")); simpl.
  - symmetry. apply filter_all. now induction tasks.
  - reflexivity.
Qed.

(** C9.  The displayed tasks are the fetched tasks whose workflow_key is
    the selected key (all of them when "all" is selected), each as often as
    it was fetched, ordered by recency descending and, among equally recent
    tasks, by title ascending in the collation of [localeCompare]; recency
    is the time of last_touched_at, else of created_at, and 0 for a missing
    or unparsable timestamp.  [localeCompare] is assumed to be a consistent
    comparator. *)
Theorem visible_tasks_order
    (getTime : jsstring -> option Z)
    (localeCompare : jsstring -> jsstring -> Z)
    (collate_total :
       forall a b, 0 < localeCompare a b -> localeCompare b a <= 0)
    (collate_trans :
       forall a b c, localeCompare a b <= 0 -> localeCompare b c <= 0 ->
                     localeCompare a c <= 0)
    (tasks : list TaskPublic) (workflowKey : jsstring) :
  let shown := visibleTasks getTime localeCompare tasks workflowKey in
  (forall t, In t shown <->
             In t tasks
             /\ (workflowKey = u "all" \/ workflow_key t = workflowKey))
  /\ Permutation shown (filter (selected workflowKey) tasks)
  /\ StronglySorted (shown_before getTime localeCompare) shown
  /\ (forall t, score getTime t = spec_recency getTime t).
Proof.
  intros shown.
  assert (P : Permutation shown (filter (selected workflowKey) tasks)).
  { subst shown. unfold visibleTasks. rewrite filtered_selected.
    apply sort_perm. }
  split; [|split; [exact P|split]].
  - intros t. split.
    + intros H. apply (Permutation_in _ P) in H. apply filter_In in H.
      destruct H as [H S]. split; [exact H|]. unfold selected in S.
      apply orb_true_iff in S. now rewrite !streq_spec in S.
    + intros [H S]. apply (Permutation_in _ (Permutation_sym P)).
      apply filter_In. split; [exact H|]. unfold selected.
      apply orb_true_iff. now rewrite !streq_spec.
  - subst shown. unfold visibleTasks.
    apply (StronglySorted_impl _ (ordered (compareTasks getTime localeCompare))).
    + intros a b. apply compareTasks_ordered.
    + apply sort_sorted.
      * apply compareTasks_total, collate_total.
      * apply compareTasks_trans, collate_trans.
  - apply score_recency.
Qed.

Lemma visible_tasks_order_witness :
  StronglySorted (shown_before digitsTime codeUnitCompare)
    (visibleTasks digitsTime codeUnitCompare sample_tasks (u "db"))
  /\ map title (visibleTasks digitsTime codeUnitCompare sample_tasks (u "db"))
     = [u "beta"; u "gamma"; u "alpha"; u "delta"].
Proof.
  split.
  - apply (visible_tasks_order digitsTime codeUnitCompare
             codeUnitCompare_total codeUnitCompare_trans sample_tasks
             (u "db")).
  - reflexivity.
Defined.

End VisibleTasksProps.

(** ** The text that a body preview cuts *)

Module PreviewProps.

Import JsFacts LibraryList.

Lemma trimStart_suffix (s : jsstring) :
  exists l, s = l ++ trimStart s /\ blank l = true.
Proof.
  induction s as [|c s (l & E & B)]; simpl.
  - exists []. now split.
  - destruct (isWhiteSpace c) eqn:W.
    + exists (c :: l). split; [simpl; now rewrite <- E|].
      unfold blank in *. simpl. now rewrite W.
    + exists []. now split.
Qed.

Lemma trimEnd_prefix (s : jsstring) :
  exists r, s = trimEnd s ++ r /\ blank r = true.
Proof.
  unfold trimEnd. destruct (trimStart_suffix (rev s)) as (l & E & B).
  exists (rev l). split.
  - rewrite <- rev_app_distr, <- E. now rewrite rev_involutive.
  - unfold blank in *. now rewrite forallb_rev.
Qed.

Lemma trimStart_length (s : jsstring) : (length (trimStart s) <= length s)%nat.
Proof.
  destruct (trimStart_suffix s) as (l & E & _).
  rewrite E at 2. rewrite length_app. lia.
Qed.

Lemma trimEnd_length (s : jsstring) : (length (trimEnd s) <= length s)%nat.
Proof.
  destruct (trimEnd_prefix s) as (r & E & _).
  rewrite E at 2. rewrite length_app. lia.
Qed.

Lemma ink_blank (s : jsstring) : blank s = true -> ink s = [].
Proof.
  unfold blank, ink. induction s as [|c s IH]; simpl; [reflexivity|].
  destruct (isWhiteSpace c); simpl; [exact IH|discriminate].
Qed.

Lemma ink_app (a b : jsstring) : ink (a ++ b) = ink a ++ ink b.
Proof. apply filter_app. Qed.

Lemma ink_trim (s : jsstring) : ink (trim s) = ink s.
Proof.
  unfold trim.
  destruct (trimStart_suffix s) as (l & E & Bl).
  destruct (trimEnd_prefix (trimStart s)) as (r & E' & Br).
  assert (H1 : ink s = ink (trimStart s)).
  { rewrite E at 1. now rewrite ink_app, (ink_blank l Bl). }
  assert (H2 : ink (trimStart s) = ink (trimEnd (trimStart s))).
  { rewrite E' at 1. now rewrite ink_app, (ink_blank r Br), app_nil_r. }
  congruence.
Qed.

Lemma ink_collapse (inrun : bool) (s : jsstring) :
  ink (collapse_go inrun s) = ink s.
Proof.
  unfold ink. revert inrun; induction s as [|c s IH]; intros inrun; simpl;
    [reflexivity|].
  destruct (isWhiteSpace c) eqn:W; simpl.
  - destruct inrun; simpl; now rewrite IH.
  - rewrite W. simpl. now rewrite IH.
Qed.

Lemma single_spaced_app (a b : jsstring) :
  single_spaced (a ++ b) = true ->
  single_spaced a = true /\ single_spaced b = true.
Proof.
  induction a as [|x a IH]; simpl; [now split|].
  destruct a as [|y a]; simpl in *.
  - destruct b; [now split|]. rewrite andb_true_iff. tauto.
  - rewrite !andb_true_iff. intuition.
Qed.

Lemma collapse_head (inrun : bool) (s : jsstring) (c : code_unit)
    (t : jsstring) :
  collapse_go inrun s = c :: t -> isWhiteSpace c = true ->
  inrun = false /\ c = 32.
Proof.
  revert inrun; induction s as [|x s IH]; intros inrun; simpl;
    [discriminate|].
  destruct (isWhiteSpace x) eqn:W.
  - destruct inrun.
    + intros E Wc. destruct (IH true E Wc). discriminate.
    + intros E _. inversion E. now split.
  - intros E Wc. inversion E; subst. congruence.
Qed.

Lemma single_spaced_cons (a b : code_unit) (t : jsstring) :
  single_spaced (a :: b :: t)
  = negb (isWhiteSpace a && isWhiteSpace b) && single_spaced (b :: t).
Proof. reflexivity. Qed.

Lemma collapse_single_spaced (inrun : bool) (s : jsstring) :
  single_spaced (collapse_go inrun s) = true.
Proof.
  revert inrun; induction s as [|x s IH]; intros inrun; [reflexivity|].
  cbn [collapse_go]. destruct (isWhiteSpace x) eqn:W.
  - destruct inrun; [apply IH|].
    specialize (IH true).
    destruct (collapse_go true s) as [|c t] eqn:E; [reflexivity|].
    destruct (isWhiteSpace c) eqn:Wc.
    { destruct (collapse_head true s c t E Wc). discriminate. }
    rewrite single_spaced_cons, Wc, IH, andb_false_r. reflexivity.
  - specialize (IH false).
    destruct (collapse_go false s) as [|c t] eqn:E; [reflexivity|].
    rewrite single_spaced_cons, W, IH. reflexivity.
Qed.

Lemma collapse_spaces (inrun : bool) (s : jsstring) :
  Forall (fun c => isWhiteSpace c = true -> c = 32) (collapse_go inrun s).
Proof.
  revert inrun; induction s as [|x s IH]; intros inrun; simpl;
    [constructor|].
  destruct (isWhiteSpace x) eqn:W.
  - destruct inrun; [apply IH|]. constructor; [reflexivity|apply IH].
  - constructor; [congruence|apply IH].
Qed.

(** What [replace(/\s+/g, " ").trim()] returns: a text that trimming leaves
    alone, whose white space is single spaces between the words of the
    input. *)
Lemma normalized_text (text : jsstring) :
  let n := trim (collapseWhiteSpace text) in
  trim n = n
  /\ single_spaced n = true
  /\ Forall (fun c => isWhiteSpace c = true -> c = 32) n
  /\ ink n = ink text.
Proof.
  intros n. subst n. unfold collapseWhiteSpace.
  split; [apply trim_idem|].
  pose proof (collapse_single_spaced false text) as S.
  pose proof (collapse_spaces false text) as F.
  unfold trim.
  destruct (trimStart_suffix (collapse_go false text)) as (l & E & _).
  destruct (trimEnd_prefix (trimStart (collapse_go false text)))
    as (r & E' & _).
  rewrite E in S, F. rewrite E' in S, F.
  split; [|split].
  - apply single_spaced_app in S. destruct S as [_ S].
    now apply single_spaced_app in S.
  - apply Forall_app in F. destruct F as [_ F].
    now apply Forall_app in F.
  - change (trimEnd (trimStart (collapse_go false text)))
      with (trim (collapse_go false text)).
    now rewrite ink_trim, ink_collapse.
Qed.

Lemma spec_preview_length (right_trim : bool) (text : jsstring) :
  (length (spec_preview right_trim text) <= 221)%nat.
Proof.
  unfold spec_preview.
  destruct (Nat.leb_spec (length (trim (collapseWhiteSpace text))) 220)
    as [H|H]; cbv iota; [lia|].
  rewrite length_app. change (length ellipsis) with 1%nat.
  pose proof (firstn_le_length 220 (trim (collapseWhiteSpace text))).
  pose proof (trimEnd_length (firstn 220 (trim (collapseWhiteSpace text)))).
  destruct right_trim; lia.
Qed.

End PreviewProps.

(** ** The supersession protocol of the Library Store *)

Module SupersedeProps.

Import LibraryStore Samples.

#[local] Open Scope nat_scope.

(** *** Lookup *)

Lemma next_id_cons (x : LibraryItem) (s : Store) :
  next_id (x :: s) = Nat.max (S (id x)) (next_id s).
Proof. reflexivity. Qed.

Lemma id_lt_next (s : Store) (it : LibraryItem) :
  In it s -> id it < next_id s.
Proof.
  induction s as [|x s IH]; [simpl; tauto|].
  rewrite next_id_cons. intros [->|H]; [lia|]. specialize (IH H). lia.
Qed.

Lemma next_id_fresh (s : Store) : ~ In (next_id s) (ids s).
Proof.
  unfold ids. rewrite in_map_iff. intros (it & E & H).
  apply id_lt_next in H. lia.
Qed.

Lemma lookup_some (i : nat) (s : Store) (it : LibraryItem) :
  lookup i s = Some it -> In it s /\ id it = i.
Proof.
  unfold lookup. intros H. apply find_some in H.
  destruct H as [H E]. now apply Nat.eqb_eq in E.
Qed.

Lemma lookup_in (s : Store) (it : LibraryItem) :
  NoDup (ids s) -> In it s -> lookup (id it) s = Some it.
Proof.
  unfold lookup, ids. induction s as [|x s IH]; simpl; [tauto|].
  intros N [->|H].
  - now rewrite Nat.eqb_refl.
  - inversion N as [|? ? Hx Hs]; subst.
    destruct (Nat.eqb_spec (id x) (id it)) as [E|_]; [|now apply IH].
    exfalso. apply Hx. rewrite E. now apply in_map.
Qed.

Lemma lookup_app (i : nat) (s t : Store) :
  lookup i (s ++ t)
  = match lookup i s with Some x => Some x | None => lookup i t end.
Proof.
  unfold lookup. induction s as [|x s IH]; simpl; [reflexivity|].
  now destruct (id x =? i).
Qed.

Lemma point_to_id (old_id new_id : nat) (it : LibraryItem) :
  id (point_to old_id new_id it) = id it.
Proof. unfold point_to. now destruct (id it =? old_id). Qed.

Lemma lookup_point_to (i old_id new_id : nat) (s : Store) :
  lookup i (map (point_to old_id new_id) s)
  = option_map (point_to old_id new_id) (lookup i s).
Proof.
  unfold lookup. induction s as [|x s IH]; simpl; [reflexivity|].
  rewrite point_to_id. now destruct (id x =? i).
Qed.

Lemma ids_point_to (old_id new_id : nat) (s : Store) :
  ids (map (point_to old_id new_id) s) = ids s.
Proof.
  unfold ids. rewrite map_map. apply map_ext, point_to_id.
Qed.

(** *** What a call to [supersede] does *)

Lemma supersede_cases (now : Z) (old_id : nat) (f : NewFields) (s : Store) :
  (lookup old_id s = None /\ supersede now old_id f s = (inl NotFound, s))
  \/ (moved s old_id /\ supersede now old_id f s = (inl ConflictError, s))
  \/ (exists old, lookup old_id s = Some old
                  /\ superseded_by_id old = None
                  /\ supersede now old_id f s
                     = (inr (new_item (next_id s) now f),
                        map (point_to old_id (next_id s)) s
                        ++ [new_item (next_id s) now f])).
Proof.
  unfold supersede, moved. destruct (lookup old_id s) as [old|] eqn:L.
  - destruct (superseded_by_id old) as [j|] eqn:E.
    + right; left. split; [|reflexivity]. exists old. split; congruence.
    + right; right. exists old. repeat split; assumption.
  - left. now split.
Qed.

Lemma supersede_conflict (now : Z) (old_id : nat) (f : NewFields) (s : Store) :
  moved s old_id -> supersede now old_id f s = (inl ConflictError, s).
Proof.
  intros (it & L & N). unfold supersede. rewrite L.
  destruct (superseded_by_id it); [reflexivity|congruence].
Qed.

Lemma supersede_failed (now : Z) (old_id : nat) (f : NewFields) (s : Store)
    (e : StoreError) :
  fst (supersede now old_id f s) = inl e -> snd (supersede now old_id f s) = s.
Proof.
  destruct (supersede_cases now old_id f s)
    as [[_ E]|[[_ E]|(old & _ & _ & E)]]; rewrite E; simpl;
    [reflexivity|reflexivity|discriminate].
Qed.

Lemma moved_kept (now : Z) (a b : nat) (f : NewFields) (s : Store) :
  moved s a -> moved (snd (supersede now b f s)) a.
Proof.
  intros M.
  destruct (supersede_cases now b f s)
    as [[_ E]|[[_ E]|(old & _ & _ & E)]]; rewrite E; simpl; try exact M.
  destruct M as (it & L & N).
  exists (point_to b (next_id s) it). split.
  - now rewrite lookup_app, lookup_point_to, L.
  - unfold point_to. destruct (id it =? b); simpl; congruence.
Qed.

Lemma moved_after_success (now : Z) (a : nat) (f : NewFields) (s : Store)
    (it : LibraryItem) :
  fst (supersede now a f s) = inr it -> moved (snd (supersede now a f s)) a.
Proof.
  destruct (supersede_cases now a f s)
    as [[_ E]|[[_ E]|(old & L & _ & E)]]; rewrite E; simpl;
    [discriminate|discriminate|]. intros _.
  exists (point_to a (next_id s) old). split.
  - now rewrite lookup_app, lookup_point_to, L.
  - apply lookup_some in L. destruct L as [_ L].
    unfold point_to. apply Nat.eqb_eq in L. rewrite L. simpl. congruence.
Qed.

(** *** At most one winner *)

Lemma commit_all_cons (now : Z) (old_id : nat) (f : NewFields)
    (rest : list (Z * nat * NewFields)) (s : Store) :
  commit_all ((now, old_id, f) :: rest) s
  = ((old_id, fst (supersede now old_id f s))
       :: fst (commit_all rest (snd (supersede now old_id f s))),
     snd (commit_all rest (snd (supersede now old_id f s)))).
Proof.
  simpl. destruct (supersede now old_id f s) as [r s']. simpl.
  now destruct (commit_all rest s').
Qed.

Lemma no_winner_once_moved (calls : list (Z * nat * NewFields)) (a : nat)
    (s : Store) :
  moved s a -> winners a (fst (commit_all calls s)) = [].
Proof.
  revert s; induction calls as [|[[now b] f] rest IH]; intros s M;
    [reflexivity|].
  rewrite commit_all_cons. unfold winners in *. cbn [fst snd filter].
  rewrite (IH _ (moved_kept now a b f s M)).
  destruct (Nat.eqb_spec b a) as [->|_]; [|reflexivity].
  now rewrite (supersede_conflict now a f s M).
Qed.

Lemma winners_cons (a b : nat) (r : StoreError + LibraryItem)
    (rest : list (nat * (StoreError + LibraryItem))) :
  winners a ((b, r) :: rest)
  = if (b =? a) && match r with inr _ => true | inl _ => false end
    then (b, r) :: winners a rest
    else winners a rest.
Proof. reflexivity. Qed.

Lemma at_most_one_winner (calls : list (Z * nat * NewFields)) (a : nat)
    (s : Store) :
  length (winners a (fst (commit_all calls s))) <= 1.
Proof.
  revert s; induction calls as [|[[now b] f] rest IH]; intros s;
    [simpl; lia|].
  rewrite commit_all_cons. cbn [fst]. rewrite winners_cons.
  destruct (Nat.eqb_spec b a) as [->|_]; [|apply IH].
  destruct (fst (supersede now a f s)) as [e|it] eqn:R; [apply IH|].
  cbn [andb length].
  rewrite (no_winner_once_moved rest a _ (moved_after_success _ _ _ _ _ R)).
  simpl. lia.
Qed.

(** *** The store stays well formed *)

Lemma well_formed_empty : well_formed [].
Proof. split; [constructor|]. intros it j []. Qed.

Lemma NoDup_snoc (l : list nat) (x : nat) :
  NoDup l -> ~ In x l -> NoDup (l ++ [x]).
Proof.
  intros N H. apply NoDup_rev in N.
  rewrite <- (rev_involutive (l ++ [x])). apply NoDup_rev.
  rewrite rev_app_distr. simpl. constructor; [|exact N].
  now rewrite <- in_rev.
Qed.

Lemma well_formed_create (now : Z) (f : NewFields) (s : Store) :
  well_formed s -> well_formed (snd (create now f s)).
Proof.
  intros [N P]. unfold create; simpl. split.
  - unfold ids. rewrite map_app. simpl.
    apply NoDup_snoc; [exact N|apply next_id_fresh].
  - intros it j Hin E. unfold ids. rewrite map_app, in_app_iff.
    apply in_app_iff in Hin. destruct Hin as [Hin|[<-|[]]].
    + destruct (P it j Hin E). tauto.
    + discriminate.
Qed.

Lemma well_formed_supersede (now : Z) (old_id : nat) (f : NewFields)
    (s : Store) :
  well_formed s -> well_formed (snd (supersede now old_id f s)).
Proof.
  intros W.
  destruct (supersede_cases now old_id f s)
    as [[_ E]|[[_ E]|(old & _ & _ & E)]]; rewrite E; simpl; try exact W.
  destruct W as [N P]. split.
  - unfold ids. rewrite map_app. fold (ids (map (point_to old_id (next_id s)) s)).
    rewrite ids_point_to. simpl.
    apply NoDup_snoc; [exact N|apply next_id_fresh].
  - intros it j Hin Ej.
    assert (I : ids (map (point_to old_id (next_id s)) s
                     ++ [new_item (next_id s) now f])
                = ids s ++ [next_id s]).
    { unfold ids. rewrite map_app.
      fold (ids (map (point_to old_id (next_id s)) s)).
      now rewrite ids_point_to. }
    rewrite I, in_app_iff.
    apply in_app_iff in Hin. destruct Hin as [Hin|[<-|[]]]; [|discriminate].
    apply in_map_iff in Hin. destruct Hin as (it0 & <- & Hin0).
    rewrite point_to_id. revert Ej. unfold point_to.
    destruct (id it0 =? old_id); simpl.
    + intros Ej. inversion Ej; subst j. split.
      * now apply id_lt_next.
      * right. simpl. tauto.
    + intros Ej. destruct (P it0 j Hin0 Ej). tauto.
Qed.

Lemma well_formed_apply (s : Store) (op : Op) :
  well_formed s -> well_formed (apply_op s op).
Proof.
  destruct op; simpl;
    [apply well_formed_create | apply well_formed_supersede].
Qed.

Lemma well_formed_fold (ops : list Op) (s : Store) :
  well_formed s -> well_formed (fold_left apply_op ops s).
Proof.
  revert s; induction ops as [|op ops IH]; intros s W; simpl; [exact W|].
  apply IH, well_formed_apply, W.
Qed.

Lemma well_formed_run (history : list Op) : well_formed (run history).
Proof. apply well_formed_fold, well_formed_empty. Qed.

Lemma commit_all_run (calls : list (Z * nat * NewFields)) (s : Store) :
  snd (commit_all calls s) = fold_left apply_op (map as_op calls) s.
Proof.
  revert s; induction calls as [|[[now b] f] rest IH]; intros s;
    [reflexivity|].
  rewrite commit_all_cons. simpl. apply IH.
Qed.

(** *** The walk to the head *)

Lemma head_of_mono (n : nat) (s : Store) (x h : nat) :
  head_of n s x = Some h -> head_of (S n) s x = Some h.
Proof.
  revert x; induction n as [|n IH]; intros x; [discriminate|].
  simpl. destruct (lookup x s) as [it|]; [|discriminate].
  destruct (superseded_by_id it) as [j|]; [|trivial].
  intros H. apply IH in H. exact H.
Qed.

(** With fuel for the ids still ahead, the walk from a stored item ends at
    a current item of its chain. *)
Lemma head_of_total (s : Store) (n x : nat) :
  well_formed s -> In x (ids s) -> next_id s <= x + n ->
  exists h, head_of n s x = Some h
            /\ current s h
            /\ clos_refl_trans nat (superseded_by s) x h.
Proof.
  intros [N P]. revert x; induction n as [|n IH]; intros x Hx Hn.
  - unfold ids in Hx. apply in_map_iff in Hx. destruct Hx as (it & <- & Hin).
    apply id_lt_next in Hin. lia.
  - unfold ids in Hx. apply in_map_iff in Hx. destruct Hx as (it & <- & Hin).
    simpl. rewrite (lookup_in s it N Hin).
    destruct (superseded_by_id it) as [j|] eqn:E.
    + destruct (P it j Hin E) as [Hlt Hj].
      destruct (IH j Hj ltac:(lia)) as (h & Hh & Hc & Hr).
      exists h. repeat split; try assumption.
      apply rt_trans with j; [|exact Hr].
      apply rt_step. exists it. tauto.
    + exists (id it). repeat split.
      * exists it. tauto.
      * apply rt_refl.
Qed.

Lemma head_of_step (s : Store) (x y : nat) :
  well_formed s -> superseded_by s x y ->
  head_of (next_id s) s x = head_of (next_id s) s y.
Proof.
  intros W (it & Hin & Ex & Ey). pose proof W as [N P].
  destruct (P it y Hin Ey) as [Hlt Hy].
  pose proof (id_lt_next s it Hin) as Hnext.
  destruct (next_id s) as [|k] eqn:K; [lia|].
  destruct (head_of_total s k y W Hy ltac:(lia)) as (h & Hh & _).
  rewrite (head_of_mono k s y h Hh).
  simpl. rewrite <- Ex, (lookup_in s it N Hin), Ey. exact Hh.
Qed.

Lemma head_of_chain (s : Store) (x y : nat) :
  well_formed s -> same_chain s x y ->
  head_of (next_id s) s x = head_of (next_id s) s y.
Proof.
  intros W. induction 1 as [x y H|x|x y _ IH|x y z _ IH1 _ IH2].
  - now apply head_of_step.
  - reflexivity.
  - now symmetry.
  - now transitivity (head_of (next_id s) s y).
Qed.

Lemma head_of_current (s : Store) (h : nat) :
  well_formed s -> current s h -> head_of (next_id s) s h = Some h.
Proof.
  intros [N P] (it & Hin & Eh & E).
  pose proof (id_lt_next s it Hin) as Hnext.
  destruct (next_id s) as [|k]; [lia|].
  simpl. now rewrite <- Eh, (lookup_in s it N Hin), E.
Qed.

Lemma one_head (s : Store) (x : nat) :
  well_formed s -> In x (ids s) ->
  exists h, head_of (next_id s) s x = Some h
            /\ unique (fun h => same_chain s x h /\ current s h) h.
Proof.
  intros W Hx.
  destruct (head_of_total s (next_id s) x W Hx ltac:(lia)) as (h & Hh & Hc & Hr).
  exists h. split; [exact Hh|]. split.
  - split; [|exact Hc]. clear - Hr.
    induction Hr as [x y H|x|x y z _ IH1 _ IH2].
    + now apply rst_step.
    + apply rst_refl.
    + now apply rst_trans with y.
  - intros h' [Hs Hc'].
    pose proof (head_of_chain s x h' W Hs) as E.
    rewrite Hh, (head_of_current s h' W Hc') in E. congruence.
Qed.

(** A pointer that has been set is never written again. *)
Lemma pointer_kept (s : Store) (op : Op) (a j : nat) (it : LibraryItem) :
  lookup a s = Some it -> superseded_by_id it = Some j ->
  exists it', lookup a (apply_op s op) = Some it'
              /\ superseded_by_id it' = Some j.
Proof.
  intros L E. destruct op as [now f|now b f]; simpl.
  - exists it. unfold create; simpl. now rewrite lookup_app, L.
  - destruct (supersede_cases now b f s)
      as [[_ R]|[[_ R]|(old & Lb & Eb & R)]]; rewrite R; simpl;
      try (exists it; now split).
    exists (point_to b (next_id s) it). split.
    + now rewrite lookup_app, lookup_point_to, L.
    + unfold point_to. destruct (Nat.eqb_spec (id it) b) as [Hb|_];
        [|exact E].
      destruct (lookup_some a s it L) as [_ La].
      assert (a = b) by congruence. subst b. congruence.
Qed.

(** C1.  In every store that a history of creations and supersessions
    leads to, every stored item has exactly one current item in its chain,
    and the forward walk finds it.  A [supersede] of an item whose head has
    already moved fails with ConflictError; a failed call writes nothing,
    and a pointer once set is never written again.  Of any batch of
    concurrent [supersede] calls, committed one at a time in any order, at
    most one call per item succeeds, and the store they leave is again
    the store of a history. *)
Theorem supersede_single_head (history : list Op) :
  let s := run history in
  (forall x, In x (ids s) ->
             exists! h, same_chain s x h /\ current s h)
  /\ (forall x, In x (ids s) ->
                exists h, head_of (next_id s) s x = Some h /\ current s h)
  /\ (forall now old_id f old j,
        lookup old_id s = Some old -> superseded_by_id old = Some j ->
        supersede now old_id f s = (inl ConflictError, s))
  /\ (forall now old_id f e,
        fst (supersede now old_id f s) = inl e ->
        snd (supersede now old_id f s) = s)
  /\ (forall op a old j,
        lookup a s = Some old -> superseded_by_id old = Some j ->
        exists old', lookup a (apply_op s op) = Some old'
                     /\ superseded_by_id old' = Some j)
  /\ (forall calls old_id,
        length (winners old_id (fst (commit_all calls s))) <= 1)
  /\ (forall calls,
        snd (commit_all calls s) = run (history ++ map as_op calls)).
Proof.
  intros s. pose proof (well_formed_run history) as W. fold s in W.
  split; [|split; [|split; [|split; [|split; [|split]]]]].
  - intros x H. destruct (one_head s x W H) as (h & _ & U). now exists h.
  - intros x H. destruct (one_head s x W H) as (h & Hh & [[_ Hc] _]).
    now exists h.
  - intros now old_id f old j L E. apply supersede_conflict.
    exists old. split; congruence.
  - intros now old_id f e. apply supersede_failed.
  - intros op a old j. apply pointer_kept.
  - intros calls old_id. apply at_most_one_winner.
  - intros calls. rewrite commit_all_run. subst s. unfold run.
    now rewrite fold_left_app.
Qed.

Lemma supersede_single_head_witness :
  (exists! h, same_chain (run sample_history) 0 h
              /\ current (run sample_history) h)
  /\ head_of (next_id (run sample_history)) (run sample_history) 0 = Some 3
  /\ supersede 9 0 (note "D") (run sample_history)
     = (inl ConflictError, run sample_history).
Proof.
  destruct (supersede_single_head sample_history) as (H1 & _ & H3 & _).
  split; [|split].
  - apply H1. vm_compute. tauto.
  - reflexivity.
  - eapply H3; reflexivity.
Defined.

End SupersedeProps.

(** ** Listing the current library items *)

Module ListingProps.

Import JsFacts LibraryApi LibraryStore Samples.

#[local] Open Scope nat_scope.

Lemma is_current_spec (it : LibraryItem) :
  is_current it = true <-> superseded_by_id it = None.
Proof.
  unfold is_current. destruct (superseded_by_id it); split; congruence.
Qed.

Lemma window_incl (A : Type) (skip limit : nat) (l : list A) (x : A) :
  In x (firstn limit (skipn skip l)) -> In x l.
Proof.
  intros H. rewrite <- (firstn_skipn skip l). apply in_or_app. right.
  rewrite <- (firstn_skipn limit (skipn skip l)). apply in_or_app. now left.
Qed.

Lemma window_all (A : Type) (limit : nat) (l : list A) :
  length l <= limit -> firstn limit (skipn 0 l) = l.
Proof. intros H. simpl. now apply firstn_all2. Qed.

Section Listing.

Variable q_matches : jsstring -> LibraryItem -> bool.
Variable default_limit : nat.

Lemma matching_current (query : Query) (s : Store) :
  q_current_only query = Some true ->
  matching q_matches query s
  = filter (fun it => is_current it && other_filters q_matches query it) s.
Proof.
  intros C. unfold matching, current_filter. now rewrite C.
Qed.

Lemma list_items_page (query : Query) (s : Store) (page : Page) :
  list_items q_matches default_limit query s = inr page ->
  data page
  = firstn (Z.to_nat (page_limit default_limit query))
      (skipn (Z.to_nat (page_skip query)) (matching q_matches query s))
  /\ count page = length (matching q_matches query s).
Proof.
  unfold list_items.
  destruct (_ || _); [discriminate|]. intros H; inversion H; subst; simpl.
  now split.
Qed.

End Listing.

Lemma window_nth (A : Type) (skip limit n : nat) (l : list A) :
  skip <= n < skip + limit ->
  nth_error (firstn limit (skipn skip l)) (n - skip) = nth_error l n.
Proof.
  intros H. rewrite nth_error_firstn.
  destruct (Nat.ltb_spec (n - skip) limit) as [_|L]; [|lia].
  rewrite nth_error_skipn. f_equal. lia.
Qed.

(** The claim as the specification words it, every stored current item
    that passes the other filters is returned, fails on a page that is
    shorter than the result set: of the two current items of the sample
    store, a listing with limit 1 returns the first only. *)
Lemma current_only_listing_counterexample :
  exists page it,
    list_items title_is 50
      (readLibraryItems (library_narrow_params (u " foo ") [] 0))
      (run sample_history) = inr page
    /\ In it (run sample_history)
    /\ superseded_by_id it = None
    /\ other_filters title_is
         (readLibraryItems (library_narrow_params (u " foo ") [] 0)) it
       = true
    /\ ~ In it (data page).
Proof.
  eexists.
  exists (new_item 3 5 (note "C")).
  split; [reflexivity|]. split; [vm_compute; tauto|].
  split; [reflexivity|]. split; [reflexivity|].
  intros [H|[]]. apply (f_equal id) in H. discriminate H.
Qed.

(** C5.  A library listing asked with current_only=true and answered with
    a page returns only stored items whose superseded_by_id is null and
    that pass the other filters.  Its result set, the stored items with
    null superseded_by_id that pass the other filters, is what [count]
    counts, and [data] is the part of the result set that the request's
    skip and limit select: an item of the result set is returned by the
    request whose window covers its position, and all of them are
    returned by a first page whose limit is at least [count]. *)
Theorem current_only_listing
    (q_matches : jsstring -> LibraryItem -> bool) (default_limit : nat)
    (s : Store) (params : ReadLibraryItemsParams) (page : Page) :
  p_current_only params = Some true ->
  list_items q_matches default_limit (readLibraryItems params) s = inr page ->
  let query := readLibraryItems params in
  let result :=
    filter (fun it => is_current it && other_filters q_matches query it) s in
  let skip := Z.to_nat (page_skip query) in
  let limit := Z.to_nat (page_limit default_limit query) in
  (forall it, In it (data page) ->
              In it s /\ superseded_by_id it = None
              /\ other_filters q_matches query it = true)
  /\ (forall it, In it result <->
                 In it s /\ superseded_by_id it = None
                 /\ other_filters q_matches query it = true)
  /\ count page = length result
  /\ data page = firstn limit (skipn skip result)
  /\ (forall n, skip <= n < skip + limit ->
                nth_error (data page) (n - skip) = nth_error result n)
  /\ (skip = 0 -> count page <= limit -> data page = result).
Proof.
  intros C L query result skip limit.
  assert (Cq : q_current_only query = Some true) by exact C.
  destruct (list_items_page q_matches default_limit query s page L)
    as (D & N).
  rewrite (matching_current q_matches query s Cq) in D, N.
  fold result skip limit in D, N.
  assert (R : forall it, In it result <->
                In it s /\ superseded_by_id it = None
                /\ other_filters q_matches query it = true).
  { intros it. unfold result. rewrite filter_In, andb_true_iff.
    now rewrite is_current_spec. }
  split; [|split; [exact R|split; [exact N|split; [exact D|split]]]].
  - intros it H. apply R. rewrite D in H. exact (window_incl _ _ _ _ _ H).
  - intros n H. rewrite D. now apply window_nth.
  - intros Hs Hc. rewrite D, Hs. apply window_all. now rewrite <- N.
Qed.

Lemma current_only_listing_witness :
  exists page,
    list_items title_is 50
      (readLibraryItems (library_narrow_params (u " foo ") [] 1))
      (run sample_history) = inr page
    /\ map id (data page) = [3]
    /\ count page = 2
    /\ (forall it, In it (data page) -> superseded_by_id it = None)
    /\ option_map id (nth_error (data page) 0) = Some 3.
Proof.
  eexists. split; [reflexivity|]. split; [reflexivity|].
  split; [reflexivity|].
  destruct (current_only_listing title_is 50 (run sample_history)
              (library_narrow_params (u " foo ") [] 1) _ eq_refl eq_refl)
    as (Sound & _ & _ & _ & Nth & _).
  split.
  - intros it H. now apply Sound.
  - assert (W : Z.to_nat 1 <= 1 < Z.to_nat 1 + Z.to_nat 1) by (simpl; lia).
    exact (f_equal (option_map id) (Nth 1 W)).
Defined.

End ListingProps.

(** ** More facts about strings *)

Module JsMoreFacts.

Import JsFacts.

Lemma split_nonempty (sep : code_unit) (s : jsstring) : split sep s <> [].
Proof.
  destruct s as [|c s]; simpl; [discriminate|].
  destruct (N.eqb c sep); [discriminate|].
  destruct (split sep s); discriminate.
Qed.

Lemma join_cons (sep t : jsstring) (ts : list jsstring) :
  ts <> [] -> join sep (t :: ts) = t ++ sep ++ join sep ts.
Proof. destruct ts; [congruence|reflexivity]. Qed.

Lemma join_cons_char (sep : jsstring) (c : code_unit) (t : jsstring)
    (ts : list jsstring) :
  join sep ((c :: t) :: ts) = c :: join sep (t :: ts).
Proof. destruct ts; reflexivity. Qed.

(** Joining the pieces of a split with another separator replaces the
    separator throughout. *)
Lemma join_split_map (a b : code_unit) (s : jsstring) :
  join [b] (split a s) = map (fun c => if N.eqb c a then b else c) s.
Proof.
  induction s as [|c s IH]; [reflexivity|]. simpl.
  destruct (N.eqb c a).
  - rewrite join_cons by apply split_nonempty. simpl. now rewrite IH.
  - pose proof (split_nonempty a s) as Hne.
    destruct (split a s) as [|t ts]; [congruence|].
    rewrite join_cons_char. now rewrite IH.
Qed.

Lemma join_split (sep : code_unit) (s : jsstring) :
  join [sep] (split sep s) = s.
Proof.
  rewrite join_split_map. rewrite <- (map_id s) at 2. apply map_ext.
  intros c. destruct (N.eqb_spec c sep); congruence.
Qed.

(** Replacing a one-unit pattern by one unit is a map. *)
Lemma replaceAll_unit (a b : code_unit) (s : jsstring) :
  replaceAll [a] [b] s = map (fun c => if N.eqb c a then b else c) s.
Proof.
  unfold replaceAll. induction s as [|c s IH]; [reflexivity|].
  cbn [replace_go starts_with length Nat.pred map]. rewrite IH.
  rewrite N.eqb_sym. destruct (N.eqb c a) eqn:E.
  - destruct s; reflexivity.
  - reflexivity.
Qed.

Lemma starts_with_length (p s : jsstring) :
  starts_with p s = true -> (length p <= length s)%nat.
Proof.
  revert s; induction p as [|x p IH]; intros [|y s]; simpl;
    try discriminate; try lia.
  rewrite andb_true_iff. intros [_ H]. apply IH in H. lia.
Qed.

(** A replacement that is no longer than its pattern never lengthens. *)
Lemma replace_go_length (p r : jsstring) (skip : nat) (s : jsstring) :
  (length r <= length p)%nat ->
  (length (replace_go p r skip s) + Nat.min skip (length s) <= length s)%nat.
Proof.
  intros Hr. revert skip; induction s as [|c s IH]; intros skip.
  - simpl. lia.
  - cbn [replace_go]. destruct skip as [|k].
    + destruct (starts_with p (c :: s)) eqn:E.
      * apply starts_with_length in E. simpl in E.
        specialize (IH (Nat.pred (length p))).
        rewrite length_app. simpl length. lia.
      * specialize (IH 0%nat). simpl. lia.
    + specialize (IH k). simpl. lia.
Qed.

Lemma replaceAll_length (p r s : jsstring) :
  (length r <= length p)%nat ->
  (length (replaceAll p r s) <= length s)%nat.
Proof.
  intros H. pose proof (replace_go_length p r 0 s H). unfold replaceAll.
  lia.
Qed.

(** A text in which the first unit of the pattern does not occur is left
    alone. *)
Lemma replaceAll_absent (x : code_unit) (p r s : jsstring) :
  ~ In x s -> replaceAll (x :: p) r s = s.
Proof.
  unfold replaceAll. induction s as [|c s IH]; [reflexivity|].
  intros H. cbn [replace_go starts_with].
  destruct (N.eqb_spec x c) as [->|_]; [simpl in H; tauto|].
  simpl. rewrite IH; [reflexivity|]. simpl in H. tauto.
Qed.

Lemma trimEnd_fixed (s : jsstring) (c : code_unit) :
  isWhiteSpace c = false -> trimEnd (s ++ [c]) = s ++ [c].
Proof.
  intros H. unfold trimEnd. rewrite rev_app_distr. simpl.
  rewrite H. simpl. now rewrite rev_involutive.
Qed.

End JsMoreFacts.

(** ** Line breaks and headings of a library body *)

Module NormalizeProps.

Import JsFacts JsMoreFacts JsMore LibraryList.

Lemma unescape_match (s : jsstring) :
  unescape (92 :: 110 :: s) = 10 :: unescape s.
Proof. reflexivity. Qed.

Lemma unescape_skip (c : code_unit) (s : jsstring) :
  starts_with [92; 110] (c :: s) = false ->
  unescape (c :: s) = c :: unescape s.
Proof.
  intros H. unfold unescape, replaceAll. cbn [replace_go]. now rewrite H.
Qed.

Lemma starts_with_pair (c : code_unit) (s : jsstring) :
  starts_with [92; 110] (c :: s) = true ->
  exists t, c = 92 /\ s = 110 :: t.
Proof.
  destruct s as [|d t]; cbn [starts_with];
    [rewrite andb_false_r; discriminate|].
  rewrite !andb_true_iff, !N.eqb_eq. intros (Hc & Hd & _). subst.
  now exists t.
Qed.

Lemma unescape_clean (n : nat) (s : jsstring) :
  (length s <= n)%nat ->
  includes [92; 110] (unescape s) = false
  /\ (forall t, unescape s = 110 :: t -> exists t', s = 110 :: t').
Proof.
  revert s; induction n as [|n IH]; intros s Hn.
  - destruct s; [|simpl in Hn; lia]. split; [reflexivity|discriminate].
  - destruct s as [|c s]; [split; [reflexivity|discriminate]|].
    simpl in Hn.
    destruct (starts_with [92; 110] (c :: s)) eqn:E.
    + destruct (starts_with_pair c s E) as (t & -> & ->).
      rewrite unescape_match. simpl in Hn.
      destruct (IH t ltac:(lia)) as [H1 _].
      split; [|discriminate].
      cbn [includes starts_with]. exact H1.
    + rewrite (unescape_skip c s E).
      destruct (IH s ltac:(lia)) as [H1 H2].
      split.
      * cbn [includes]. rewrite H1, orb_false_r.
        destruct (starts_with [92; 110] (c :: unescape s)) eqn:E'; [|reflexivity].
        destruct (starts_with_pair _ _ E') as (t & -> & Ht).
        destruct (H2 t Ht) as (t' & ->). discriminate.
      * intros t Ht. inversion Ht; subst. now exists s.
Qed.

Lemma normalizeBodyMdc_plain (body : jsstring) :
  ~ In 92 body -> ~ In 13 body -> normalizeBodyMdc body = body.
Proof.
  intros Hb Hc. unfold normalizeBodyMdc.
  transitivity (replaceAll [92; 110] [10]
                  (replaceAll [92; 114; 92; 110] [10] body)).
  { do 2 f_equal. exact (replaceAll_absent 13 [10] [10] body Hc). }
  transitivity (replaceAll [92; 110] [10] body).
  { f_equal. exact (replaceAll_absent 92 [114; 92; 110] [10] body Hb). }
  exact (replaceAll_absent 92 [110] [10] body Hb).
Qed.

(** What [normalizeBodyMdc] guarantees: the result is never longer than
    the body, it contains no escaped line break (a backslash followed by
    n), and a body without backslash and without carriage return comes
    back unchanged. *)
Theorem normalizeBodyMdc_line_breaks (body : jsstring) :
  (length (normalizeBodyMdc body) <= length body)%nat
  /\ includes [92; 110] (normalizeBodyMdc body) = false
  /\ (~ In 92 body -> ~ In 13 body -> normalizeBodyMdc body = body).
Proof.
  unfold normalizeBodyMdc. split; [|split].
  - pose proof (replaceAll_length [13; 10] [10] body ltac:(simpl; lia)).
    pose proof (replaceAll_length [92; 114; 92; 110] [10]
                  (replaceAll [13; 10] [10] body) ltac:(simpl; lia)).
    pose proof (replaceAll_length [92; 110] [10]
                  (replaceAll [92; 114; 92; 110] [10]
                     (replaceAll [13; 10] [10] body)) ltac:(simpl; lia)).
    lia.
  - apply (unescape_clean _ _ (Nat.le_refl _)).
  - apply (normalizeBodyMdc_plain body).
Qed.

Lemma normalizeBodyMdc_line_breaks_witness :
  normalizeBodyMdc (u "# Title") = u "# Title".
Proof.
  apply (normalizeBodyMdc_line_breaks (u "# Title")); vm_compute;
    intuition discriminate.
Defined.

(** *** Heading lines *)

Lemma dropHashes_cons (c : code_unit) (s : jsstring) :
  dropHashes (c :: s) = if N.eqb c 35 then dropHashes s else c :: s.
Proof.
  destruct (N.eqb_spec c 35) as [->|H]; [reflexivity|].
  destruct c as [|p]; [reflexivity|].
  do 6 (destruct p as [p|p|]; try reflexivity). congruence.
Qed.

Lemma dropHashes_repeat (n : nat) (c : code_unit) (rest : jsstring) :
  c <> 35 -> dropHashes (repeat 35 n ++ c :: rest) = c :: rest.
Proof.
  intros H. induction n as [|n IH]; simpl repeat; simpl app.
  - rewrite dropHashes_cons. destruct (N.eqb_spec c 35); congruence.
  - rewrite dropHashes_cons. exact IH.
Qed.

Lemma dropHashes_split (s : jsstring) :
  exists n, s = repeat 35 n ++ dropHashes s.
Proof.
  induction s as [|c s (n & E)]; [exists 0%nat; reflexivity|].
  rewrite dropHashes_cons. destruct (N.eqb_spec c 35) as [->|_].
  - exists (S n). simpl. now rewrite <- E.
  - now exists 0%nat.
Qed.

Lemma isHeadingLine_cons (c : code_unit) (s : jsstring) :
  isHeadingLine (c :: s)
  = if N.eqb c 35 then starts_with [92; 115] (dropHashes s) else false.
Proof.
  destruct (N.eqb_spec c 35) as [->|H]; [reflexivity|].
  destruct c as [|p]; [reflexivity|].
  do 6 (destruct p as [p|p|]; try reflexivity). congruence.
Qed.

(** The heading test as the source writes it, [/^#+\\s/]: a line passes
    exactly when it is one or more [#] followed by a backslash and the
    letter s.  A Markdown heading, whose [#]s are followed by white space,
    does not pass. *)
Theorem isHeadingLine_literal (line : jsstring) :
  (isHeadingLine line = true <->
   exists n rest, line = hashes_then n (92 :: 115 :: rest))
  /\ (forall n c rest,
        isWhiteSpace c = true ->
        isHeadingLine (hashes_then n (c :: rest)) = false).
Proof.
  split.
  - split.
    + destruct line as [|c s]; [discriminate|].
      rewrite isHeadingLine_cons.
      destruct (N.eqb_spec c 35) as [->|_]; [|discriminate].
      destruct (dropHashes_split s) as (n & E). intros H.
      destruct (dropHashes s) as [|a [|b rest]]; try discriminate;
        cbn [starts_with] in H;
        [now rewrite andb_false_r in H|].
      rewrite !andb_true_iff, !N.eqb_eq in H. destruct H as (<- & <- & _).
      exists n, rest. unfold hashes_then. simpl. now rewrite E.
    + intros (n & rest & ->). unfold hashes_then. simpl repeat. simpl app.
      rewrite isHeadingLine_cons. simpl N.eqb. cbv iota.
      rewrite dropHashes_repeat by discriminate. reflexivity.
  - intros n c rest W. unfold hashes_then. simpl repeat. simpl app.
    rewrite isHeadingLine_cons. simpl N.eqb. cbv iota.
    assert (c <> 35) by (intros ->; discriminate).
    assert (c <> 92) by (intros ->; discriminate).
    rewrite dropHashes_repeat by assumption. cbn [starts_with].
    destruct (N.eqb_spec 92 c); [congruence|reflexivity].
Qed.

Lemma isHeadingLine_literal_witness :
  isHeadingLine (u "## Deploy notes") = false.
Proof.
  apply (proj2 (isHeadingLine_literal []) 1%nat 32 (u "Deploy notes")).
  reflexivity.
Defined.

(** *** Leading blank lines do not show in the preview *)

Lemma collapse_true_blank (b s : jsstring) :
  blank b = true -> collapse_go true (b ++ s) = collapse_go true s.
Proof.
  unfold blank. induction b as [|c b IH]; [reflexivity|]. simpl.
  destruct (isWhiteSpace c); [exact IH|discriminate].
Qed.

Lemma trimStart_collapse (s : jsstring) :
  trimStart (collapse_go true s) = trimStart (collapse_go false s).
Proof.
  destruct s as [|c s]; [reflexivity|]. simpl.
  destruct (isWhiteSpace c) eqn:W; [reflexivity|]. simpl. now rewrite W.
Qed.

Lemma normalized_blank_prefix (b s : jsstring) :
  blank b = true ->
  trim (collapseWhiteSpace (b ++ s)) = trim (collapseWhiteSpace s).
Proof.
  intros B. unfold trim, collapseWhiteSpace. f_equal.
  destruct b as [|c b]; [reflexivity|].
  unfold blank in B. simpl in B. apply andb_true_iff in B.
  destruct B as [Wc Bb]. simpl. rewrite Wc.
  change (trimStart (32 :: collapse_go true (b ++ s)))
    with (trimStart (collapse_go true (b ++ s))).
  rewrite (collapse_true_blank b s Bb). apply trimStart_collapse.
Qed.

Lemma spec_preview_blank_prefix (right_trim : bool) (b s : jsstring) :
  blank b = true -> spec_preview right_trim (b ++ s) = spec_preview right_trim s.
Proof.
  intros B. unfold spec_preview. now rewrite (normalized_blank_prefix b s B).
Qed.

Lemma blank_line (l : jsstring) :
  (length (trim l) =? 0)%nat = true <-> blank l = true.
Proof.
  rewrite Nat.eqb_eq, length_zero_iff_nil. apply trim_blank.
Qed.

Lemma join_dropBlankLines (lines : list jsstring) :
  exists b, blank b = true
            /\ join [10] lines = b ++ join [10] (dropBlankLines lines).
Proof.
  induction lines as [|l rest (b & B & E)]; [exists []; now split|].
  cbn [dropBlankLines].
  destruct (length (trim l) =? 0)%nat eqn:T.
  - apply blank_line in T. destruct rest as [|l2 rest].
    + exists l. split; [exact T|]. simpl. now rewrite app_nil_r.
    + exists (l ++ 10 :: b). split.
      * unfold blank in *. rewrite forallb_app. simpl. now rewrite T, B.
      * rewrite join_cons by discriminate. rewrite E.
        now rewrite <- app_assoc.
  - exists []. now split.
Qed.

Lemma dropLeadingHeading_text (body : jsstring) :
  let normalized := normalizeBodyMdc body in
  trim (collapseWhiteSpace (dropLeadingHeading body))
  = trim (collapseWhiteSpace
            (match dropBlankLines (split 10 normalized) with
             | first :: rest =>
                 if isHeadingLine first then join [10] rest else normalized
             | [] => normalized
             end)).
Proof.
  intros normalized. unfold dropLeadingHeading. fold normalized.
  destruct (join_dropBlankLines (split 10 normalized)) as (b & B & E).
  rewrite join_split in E.
  destruct (dropBlankLines (split 10 normalized)) as [|first rest] eqn:L.
  - rewrite E. simpl join. rewrite app_nil_r.
    rewrite <- (app_nil_r b) at 1. now rewrite normalized_blank_prefix.
  - destruct (isHeadingLine first).
    + destruct (join_dropBlankLines rest) as (b' & B' & E').
      rewrite E'. now rewrite normalized_blank_prefix.
    + rewrite E. now rewrite normalized_blank_prefix.
Qed.

(** What the later [BodyPreview] shows: the stated preview, right-trimmed,
    of the normalized body; or, when the first non-blank line passes the
    heading test, of the lines after it.  Blank lines before the text do
    not matter. *)
Theorem BodyPreview_v2_text (body : jsstring) :
  let normalized := normalizeBodyMdc body in
  BodyPreview_v2 body
  = spec_preview true
      (match dropBlankLines (split 10 normalized) with
       | first :: rest =>
           if isHeadingLine first then join [10] rest else normalized
       | [] => normalized
       end).
Proof.
  intros normalized.
  change (BodyPreview_v2 body)
    with (spec_preview true (dropLeadingHeading body)).
  unfold spec_preview. rewrite (dropLeadingHeading_text body).
  fold normalized. reflexivity.
Qed.

(** *** Bodies without escapes *)

Lemma split_In (sep c : code_unit) (s line : jsstring) :
  In line (split sep s) -> In c line -> In c s.
Proof.
  revert line; induction s as [|x s IH]; intros line; simpl.
  - intros [<-|[]] [].
  - destruct (N.eqb x sep).
    + intros [<-|H] Hc; [destruct Hc|]. right. now apply (IH line).
    + pose proof (split_nonempty sep s) as Hne.
      destruct (split sep s) as [|t ts]; [congruence|].
      intros [<-|H] Hc.
      * destruct Hc as [->|Hc]; [now left|]. right.
        apply (IH t); [now left|exact Hc].
      * right. apply (IH line); [now right|exact Hc].
Qed.

Lemma dropBlankLines_In (lines : list jsstring) (line : jsstring) :
  In line (dropBlankLines lines) -> In line lines.
Proof.
  induction lines as [|l lines IH]; simpl; [tauto|].
  destruct (length (trim l) =? 0)%nat; [|trivial]. intros H. right. auto.
Qed.

Lemma isHeadingLine_backslash (line : jsstring) :
  isHeadingLine line = true -> In 92 line.
Proof.
  destruct line as [|c s]; [discriminate|]. rewrite isHeadingLine_cons.
  destruct (N.eqb c 35); [|discriminate].
  destruct (dropHashes_split s) as (n & E). intros H. right.
  rewrite E. apply in_or_app. right.
  destruct (dropHashes s) as [|a t]; [discriminate|].
  cbn [starts_with] in H. apply andb_true_iff in H. destruct H as [H _].
  apply N.eqb_eq in H. subst a. now left.
Qed.

(** For a body without backslash and without carriage return the later
    revision shows the stated preview, right-trimmed, of the body itself:
    nothing is unescaped and no line is taken for a heading.  So the two
    revisions agree on every such body whose normalized text has at most
    220 code units. *)
Theorem previews_agree_plain_body (body : jsstring) :
  ~ In 92 body -> ~ In 13 body ->
  BodyPreview_v2 body = spec_preview true body
  /\ ((length (trim (collapseWhiteSpace body)) <=? 220)%nat = true ->
      BodyPreview_v2 body = BodyPreview_v1 body).
Proof.
  intros Hb Hc.
  assert (E : BodyPreview_v2 body = spec_preview true body).
  { change (BodyPreview_v2 body)
      with (spec_preview true (dropLeadingHeading body)).
    unfold spec_preview. rewrite (dropLeadingHeading_text body).
    rewrite (normalizeBodyMdc_plain body Hb Hc).
    destruct (dropBlankLines (split 10 body)) as [|first rest] eqn:L;
      [reflexivity|].
    destruct (isHeadingLine first) eqn:H; [|reflexivity].
    exfalso. apply Hb. apply (split_In 10 92 body first).
    - apply dropBlankLines_In. rewrite L. now left.
    - now apply isHeadingLine_backslash. }
  split; [exact E|]. intros H. rewrite E.
  unfold BodyPreview_v1, spec_preview. now rewrite H.
Qed.

Lemma previews_agree_plain_body_witness :
  BodyPreview_v2 (u "# Deploy   notes") = u "# Deploy notes"
  /\ BodyPreview_v1 (u "# Deploy   notes") = u "# Deploy notes".
Proof.
  destruct (previews_agree_plain_body (u "# Deploy   notes")) as [H1 H2].
  - vm_compute. intuition discriminate.
  - vm_compute. intuition discriminate.
  - split; [rewrite H1; reflexivity|].
    rewrite <- H2; [rewrite H1|]; reflexivity.
Defined.

End NormalizeProps.

(** ** The preview of a library item *)

Module BodyPreviewProps.

Import JsFacts JsMoreFacts PreviewProps NormalizeProps LibraryList.

(** C10 as stated fails for the later revision, where the preview is not
    computed from the body itself.  The item body a, backslash, n, b has
    no white space and is shorter than 220, yet its card shows "a b".  And
    the body made of the line #, backslash, s, space, x and the line y,
    which the card hands to [BodyPreview] as it is, is shown as "y". *)
Lemma preview_v2_counterexample :
  (LibraryCard_preview_v2 [97; 92; 110; 98] = u "a b"
   /\ spec_preview true [97; 92; 110; 98] = [97; 92; 110; 98])
  /\ (normalizeBodyMdc [35; 92; 115; 32; 120; 10; 121]
      = [35; 92; 115; 32; 120; 10; 121]
      /\ LibraryCard_preview_v2 [35; 92; 115; 32; 120; 10; 121] = u "y"
      /\ BodyPreview_v2 [35; 92; 115; 32; 120; 10; 121] = u "y"
      /\ spec_preview true [35; 92; 115; 32; 120; 10; 121]
         = [35; 92; 115; 32; 120; 32; 121]).
Proof. repeat split; reflexivity. Qed.

(** C10, amended.  The earlier revision computes the stated preview of the
    body.  The later revision computes the stated preview, right-trimmed
    before the ellipsis, of the body with its CRLF and escaped line breaks
    turned into line feeds, whenever the first non-blank line of that text
    does not start with #.  The text that is cut is trimmed,
    single-spaced, and has the words of its input; a text of at most 220
    code units is returned as it is, and no preview, of the component or
    on a card, is longer than 221 code units. *)
Theorem body_preview_bounded (body : jsstring) :
  let normalized := normalizeBodyMdc body in
  BodyPreview_v1 body = spec_preview false body
  /\ ((forall first rest,
         dropBlankLines (split 10 normalized) = first :: rest ->
         starts_with [35] first = false) ->
      BodyPreview_v2 body = spec_preview true normalized)
  /\ (forall right_trim text,
       let n := trim (collapseWhiteSpace text) in
       (trim n = n /\ single_spaced n = true
        /\ Forall (fun c => isWhiteSpace c = true -> c = 32) n
        /\ ink n = ink text)
       /\ ((length n <=? 220)%nat = true -> spec_preview right_trim text = n)
       /\ (length (spec_preview right_trim text) <= 221)%nat)
  /\ (length (BodyPreview_v1 body) <= 221)%nat
  /\ (length (BodyPreview_v2 body) <= 221)%nat
  /\ (length (LibraryCard_preview_v1 body) <= 221)%nat
  /\ (length (LibraryCard_preview_v2 body) <= 221)%nat.
Proof.
  intros normalized.
  assert (V2 : forall b, BodyPreview_v2 b
                         = spec_preview true (dropLeadingHeading b))
    by reflexivity.
  split; [reflexivity|]. split; [|split; [|repeat split]].
  - intros H. rewrite V2. unfold spec_preview.
    rewrite (dropLeadingHeading_text body). fold normalized.
    destruct (dropBlankLines (split 10 normalized)) as [|first rest] eqn:L;
      [reflexivity|].
    specialize (H first rest eq_refl).
    destruct first as [|c line]; [reflexivity|].
    rewrite isHeadingLine_cons.
    cbn [starts_with] in H. rewrite andb_true_r in H.
    rewrite N.eqb_sym in H. now rewrite H.
  - intros right_trim text n. split; [apply normalized_text|].
    split; [|apply spec_preview_length].
    intros H. unfold spec_preview. fold n. now rewrite H.
  - apply (spec_preview_length false body).
  - rewrite V2. apply spec_preview_length.
  - apply (spec_preview_length false body).
  - unfold LibraryCard_preview_v2. rewrite V2. apply spec_preview_length.
Qed.

Lemma body_preview_bounded_witness :
  BodyPreview_v2 (u "  deploy " ++ [92; 110] ++ u "the   db ")
  = u "deploy the db".
Proof.
  destruct (body_preview_bounded
              (u "  deploy " ++ [92; 110] ++ u "the   db "))
    as (_ & H & _).
  rewrite H; [reflexivity|].
  intros first rest E. vm_compute in E. injection E as <- _. reflexivity.
Defined.

End BodyPreviewProps.

(** ** Labels, memory blocks and filter options of the tasks page *)

Module TasksViewProps.

Import JsFacts JsMoreFacts TasksApi TasksPage TasksPageViews Samples.
Import RunDetailProps VisibleTasksProps.

(** [formatBadgeLabel] lower-cases the trimmed value in which every
    underscore has become a space: a text as long as the trimmed value,
    without underscore, that is the tokens of the trimmed value joined by
    spaces (empty tokens included). *)
Theorem formatBadgeLabel_spaces (toLowerCase : jsstring -> jsstring)
    (value : jsstring) :
  exists label,
    formatBadgeLabel toLowerCase value = toLowerCase label
    /\ label = join [32] (split 95 (trim value))
    /\ length label = length (trim value)
    /\ ~ In 95 label.
Proof.
  exists (replaceAll [95] [32] (trim value)).
  split; [reflexivity|]. rewrite replaceAll_unit.
  split; [now rewrite join_split_map|]. split; [apply length_map|].
  rewrite in_map_iff. intros (c & E & _).
  destruct (N.eqb_spec c 95); [discriminate|congruence].
Qed.

(** *** The memory blocks of a run *)

Lemma concat_nonempty (A B : Type) (l : list (A * list B)) :
  concat (map snd (filter (fun b => negb (length (snd b) =? 0)%nat) l))
  = concat (map snd l).
Proof.
  induction l as [|[a [|x xs]] l IH]; simpl; [reflexivity|exact IH|].
  now rewrite IH.
Qed.

Lemma relationVariant_inj (a b : RunLibraryRelation) :
  relationVariant a = relationVariant b -> a = b.
Proof. destruct a, b; simpl; congruence. Qed.

Lemma NoDup_map_filter (A B : Type) (f : A -> B) (p : A -> bool) (l : list A) :
  (forall a b, f a = f b -> a = b) -> NoDup l -> NoDup (map f (filter p l)).
Proof.
  intros Hf N. induction N as [|x l Hx N IH]; simpl; [constructor|].
  destruct (p x); [|exact IH]. simpl. constructor; [|exact IH].
  rewrite in_map_iff. intros (y & E & Hy). apply Hf in E. subst y.
  apply filter_In in Hy. tauto.
Qed.

(** The memory section shows one block per relation that has links, in the
    order used, created, promoted, superseded; a block holds the links of
    its relation in input order and is never empty; the blocks together
    hold every link as often as the input does; no two blocks carry the
    same badge; and the "no memory links" box is shown exactly when no
    block is. *)
Theorem memory_sections_cover (links : list RunMemoryLinkPublic) :
  (memory_sections links = [] <-> no_memory_links links = true)
  /\ (forall r block,
        In (r, block) (memory_sections links) <->
        block = filter (of_relation r) links /\ block <> [])
  /\ map fst (memory_sections links)
     = filter (fun r => existsb (of_relation r) links) group_keys
  /\ Permutation (concat (map snd (memory_sections links))) links
  /\ NoDup (map (fun b => relationVariant (fst b)) (memory_sections links)).
Proof.
  assert (P : Permutation (concat (map snd (memory_sections links))) links).
  { unfold memory_sections. rewrite concat_nonempty. simpl.
    rewrite !grouped_filter, app_nil_r. apply groups_partition. }
  assert (K : map fst (memory_sections links)
              = filter (fun r => existsb (of_relation r) links) group_keys).
  { unfold memory_sections.
    assert (E : forall r, negb (length (grouped links r) =? 0)%nat
                          = existsb (of_relation r) links).
    { intros r. rewrite grouped_filter. clear P.
      induction links as [|l ls IH]; [reflexivity|]. simpl.
      destruct (of_relation r l); [reflexivity|exact IH]. }
    unfold group_keys. simpl. rewrite !E.
    destruct (existsb (of_relation used) links),
      (existsb (of_relation created) links),
      (existsb (of_relation promoted) links),
      (existsb (of_relation superseded) links); reflexivity. }
  split; [|split; [|split; [exact K|split; [exact P|]]]].
  - unfold no_memory_links. rewrite Nat.eqb_eq, length_zero_iff_nil. split.
    + intros E. rewrite E in P. simpl in P.
      now apply Permutation_nil in P.
    + intros ->. reflexivity.
  - intros r block. unfold memory_sections.
    rewrite filter_In, in_map_iff. simpl. split.
    + intros [(r' & E & _) H]. inversion E; subst.
      rewrite grouped_filter. split; [reflexivity|].
      rewrite grouped_filter in H.
      destruct (filter (of_relation r) links); discriminate.
    + intros [-> H]. split.
      * exists r. rewrite grouped_filter. split; [reflexivity|].
        destruct r; simpl; tauto.
      * destruct (filter (of_relation r) links); [congruence|reflexivity].
  - rewrite <- (map_map fst relationVariant), K.
    apply NoDup_map_filter; [exact relationVariant_inj|].
    unfold group_keys. repeat constructor; simpl; intuition discriminate.
Qed.

(** *** The options of the workflow filter *)

Lemma existsb_streq (k : jsstring) (keys : list jsstring) :
  existsb (streq k) keys = true <-> In k keys.
Proof.
  rewrite existsb_exists. split.
  - intros (x & H & E). apply streq_spec in E. now subst.
  - intros H. exists k. split; [exact H|apply streq_refl].
Qed.

Lemma set_add_In (k x : jsstring) (keys : list jsstring) :
  In x (set_add k keys) <-> In x keys \/ x = k.
Proof.
  unfold set_add. destruct (existsb (streq k) keys) eqn:E.
  - apply existsb_streq in E. split; [tauto|]. intros [H| ->]; assumption.
  - rewrite in_app_iff. simpl. intuition.
Qed.

Lemma set_add_NoDup (k : jsstring) (keys : list jsstring) :
  NoDup keys -> NoDup (set_add k keys).
Proof.
  intros N. unfold set_add. destruct (existsb (streq k) keys) eqn:E;
    [exact N|].
  assert (H : ~ In k keys).
  { intros H. apply existsb_streq in H. congruence. }
  apply NoDup_rev in N. rewrite <- (rev_involutive (keys ++ [k])).
  apply NoDup_rev. rewrite rev_app_distr. simpl.
  constructor; [now rewrite <- in_rev|exact N].
Qed.

Lemma collected_keys (tasks : list TaskPublic) (acc : list jsstring) :
  let keys :=
    fold_left
      (fun keys task =>
         if truthy (workflow_key task)
         then set_add (workflow_key task) keys
         else keys)
      tasks acc in
  (NoDup acc -> NoDup keys)
  /\ forall k, In k keys <->
               In k acc
               \/ (k <> [] /\ exists t, In t tasks /\ workflow_key t = k).
Proof.
  revert acc; induction tasks as [|t tasks IH]; intros acc; simpl.
  - split; [trivial|]. intros k. split; [tauto|].
    intros [H|(_ & t & [] & _)]. exact H.
  - destruct (IH (if truthy (workflow_key t)
                  then set_add (workflow_key t) acc else acc)) as [N M].
    split.
    + intros Nacc. apply N.
      destruct (truthy (workflow_key t)); [now apply set_add_NoDup|exact Nacc].
    + intros k. rewrite M. clear N M IH.
      destruct (truthy (workflow_key t)) eqn:T.
      * rewrite set_add_In. split.
        -- intros [[H| ->]|(Hk & t' & Ht & E)].
           ++ now left.
           ++ right. split; [intros E; now rewrite E in T|].
              exists t. split; [now left|reflexivity].
           ++ right. split; [exact Hk|]. exists t'. split; [now right|exact E].
        -- intros [H|(Hk & t' & [<-|Ht] & E)].
           ++ now left; left.
           ++ left; right. now symmetry.
           ++ right. split; [exact Hk|]. now exists t'.
      * apply truthy_false in T. split.
        -- intros [H|(Hk & t' & Ht & E)]; [now left|].
           right. split; [exact Hk|]. exists t'. split; [now right|exact E].
        -- intros [H|(Hk & t' & [<-|Ht] & E)]; [now left|congruence|].
           right. split; [exact Hk|]. now exists t'.
Qed.

Lemma workflowKeys_members
    (localeCompare : jsstring -> jsstring -> Z) (tasks : list TaskPublic) :
  NoDup (workflowKeys localeCompare tasks)
  /\ (forall k, In k (workflowKeys localeCompare tasks) <->
                k <> [] /\ exists t, In t tasks /\ workflow_key t = k).
Proof.
  unfold workflowKeys.
  destruct (collected_keys tasks []) as [N M].
  pose proof (sort_perm _ localeCompare
                (fold_left
                   (fun keys task =>
                      if truthy (workflow_key task)
                      then set_add (workflow_key task) keys
                      else keys) tasks [])) as P.
  split.
  - apply (Permutation_NoDup (Permutation_sym P)). apply N. constructor.
  - intros k. split.
    + intros H. apply (Permutation_in _ P) in H. apply M in H.
      destruct H as [[]|H]. exact H.
    + intros H. apply (Permutation_in _ (Permutation_sym P)). apply M.
      now right.
Qed.

(** The workflow filter offers every non-empty workflow key of the fetched
    tasks, each once, and nothing else; with a consistent [localeCompare]
    the options are in collation order. *)
Theorem workflowKeys_options
    (localeCompare : jsstring -> jsstring -> Z) (tasks : list TaskPublic) :
  NoDup (workflowKeys localeCompare tasks)
  /\ (forall k, In k (workflowKeys localeCompare tasks) <->
                k <> [] /\ exists t, In t tasks /\ workflow_key t = k)
  /\ ((forall a b, (0 < localeCompare a b -> localeCompare b a <= 0)%Z) ->
      (forall a b c, (localeCompare a b <= 0 -> localeCompare b c <= 0 ->
                      localeCompare a c <= 0)%Z) ->
      StronglySorted (ordered localeCompare)
                     (workflowKeys localeCompare tasks)).
Proof.
  destruct (workflowKeys_members localeCompare tasks) as [N M].
  split; [exact N|]. split; [exact M|].
  intros T Tr. unfold workflowKeys. now apply sort_sorted.
Qed.

Lemma workflowKeys_options_witness :
  StronglySorted (ordered codeUnitCompare)
                 (workflowKeys codeUnitCompare sample_tasks)
  /\ workflowKeys codeUnitCompare sample_tasks = [u "api"; u "db"].
Proof.
  split; [|reflexivity].
  apply (workflowKeys_options codeUnitCompare sample_tasks).
  - apply codeUnitCompare_total.
  - apply codeUnitCompare_trans.
Defined.

(** *** The list under a filter option *)

Lemma shown_perm (getTime : jsstring -> option Z)
    (localeCompare : jsstring -> jsstring -> Z)
    (tasks : list TaskPublic) (workflowKey : jsstring) :
  Permutation (visibleTasks getTime localeCompare tasks workflowKey)
              (filter (selected workflowKey) tasks).
Proof.
  unfold visibleTasks. rewrite filtered_selected. apply sort_perm.
Qed.

(** The "No tasks found" box appears exactly when no fetched task passes
    the workflow filter; that never happens for a key that the filter
    offers, and under "all" the list is as long as the fetched one. *)
Theorem visibleTasks_empty_state
    (getTime : jsstring -> option Z)
    (localeCompare : jsstring -> jsstring -> Z)
    (tasks : list TaskPublic) (workflowKey : jsstring) :
  (visibleTasks getTime localeCompare tasks workflowKey = [] <->
   forall t, In t tasks -> selected workflowKey t = false)
  /\ (In workflowKey (workflowKeys localeCompare tasks) ->
      visibleTasks getTime localeCompare tasks workflowKey <> [])
  /\ length (visibleTasks getTime localeCompare tasks (u "all"))
     = length tasks.
Proof.
  pose proof (shown_perm getTime localeCompare tasks workflowKey) as P.
  assert (E : visibleTasks getTime localeCompare tasks workflowKey = [] <->
              forall t, In t tasks -> selected workflowKey t = false).
  { split.
    - intros H t Ht. rewrite H in P.
      destruct (selected workflowKey t) eqn:S; [|reflexivity].
      exfalso. apply (Permutation_in t (Permutation_sym P)).
      apply filter_In. now split.
    - intros H.
      destruct (visibleTasks getTime localeCompare tasks workflowKey)
        as [|t l]; [reflexivity|].
      assert (Ht : In t (filter (selected workflowKey) tasks))
        by (apply (Permutation_in t P); now left).
      apply filter_In in Ht. destruct Ht as [Ht S].
      rewrite (H t Ht) in S. discriminate. }
  split; [exact E|]. split.
  - intros Hk Hempty. apply (workflowKeys_members localeCompare tasks) in Hk.
    destruct Hk as (_ & t & Ht & Ek).
    assert (S : selected workflowKey t = true).
    { unfold selected. rewrite Ek, streq_refl. apply orb_true_r. }
    rewrite (proj1 E Hempty t Ht) in S. discriminate.
  - rewrite (Permutation_length
               (shown_perm getTime localeCompare tasks (u "all"))).
    f_equal. apply filter_all. apply forallb_forall. intros t _.
    unfold selected. now rewrite streq_refl.
Qed.

Lemma visibleTasks_empty_state_witness :
  visibleTasks digitsTime codeUnitCompare sample_tasks (u "api") <> [].
Proof.
  apply (visibleTasks_empty_state digitsTime codeUnitCompare sample_tasks
           (u "api")).
  vm_compute. tauto.
Defined.

(** *** Sorting what is shown changes nothing *)

Lemma sort_sorted_id (A : Type) (compareFn : A -> A -> Z) (l : list A) :
  StronglySorted (ordered compareFn) l -> sort compareFn l = l.
Proof.
  induction 1 as [|x l Hs IH Hx]; [reflexivity|]. simpl. rewrite IH.
  destruct l as [|y l]; [reflexivity|]. simpl.
  inversion Hx as [|? ? Hxy _]; subst. unfold ordered in Hxy.
  destruct (Z.leb_spec (compareFn x y) 0); [reflexivity|lia].
Qed.

(** With a consistent [localeCompare], the displayed list is a fixed
    point: computing the visible tasks of the displayed list, under the
    same filter, gives the displayed list again. *)
Theorem visibleTasks_fixed_point
    (getTime : jsstring -> option Z)
    (localeCompare : jsstring -> jsstring -> Z)
    (tasks : list TaskPublic) (workflowKey : jsstring) :
  (forall a b, (0 < localeCompare a b -> localeCompare b a <= 0)%Z) ->
  (forall a b c, (localeCompare a b <= 0 -> localeCompare b c <= 0 ->
                  localeCompare a c <= 0)%Z) ->
  visibleTasks getTime localeCompare
    (visibleTasks getTime localeCompare tasks workflowKey) workflowKey
  = visibleTasks getTime localeCompare tasks workflowKey.
Proof.
  intros T Tr.
  pose proof (shown_perm getTime localeCompare tasks workflowKey) as P.
  set (shown := visibleTasks getTime localeCompare tasks workflowKey) in *.
  unfold visibleTasks at 1. rewrite filtered_selected.
  assert (F : filter (selected workflowKey) shown = shown).
  { apply filter_all. apply forallb_forall. intros t Ht.
    apply (Permutation_in t P) in Ht. apply filter_In in Ht. tauto. }
  rewrite F. apply sort_sorted_id. subst shown. unfold visibleTasks.
  apply sort_sorted.
  - intros a b. apply compareTasks_total, T.
  - intros a b c. apply compareTasks_trans, Tr.
Qed.

Lemma visibleTasks_fixed_point_witness :
  visibleTasks digitsTime codeUnitCompare
    (visibleTasks digitsTime codeUnitCompare sample_tasks (u "db")) (u "db")
  = visibleTasks digitsTime codeUnitCompare sample_tasks (u "db").
Proof.
  apply (visibleTasks_fixed_point digitsTime codeUnitCompare sample_tasks
           (u "db") codeUnitCompare_total codeUnitCompare_trans).
Defined.

End TasksViewProps.

(** ** More about renaming *)

Module RenameMoreProps.

Import JsFacts TasksApi TasksPage Samples RenameProps.

(** Whatever [commitRename] sends is the trimmed draft, which is not empty,
    has no white space around it and differs from the trimmed current
    title; and sending leaves the dialog state as it is until the answer
    comes. *)
Theorem commitRename_request (st : RenameState) (next : jsstring) :
  snd (commitRename st) = Some next ->
  next = trim (titleDraft st)
  /\ next <> []
  /\ trim next = next
  /\ next <> trim (taskTitle st)
  /\ fst (commitRename st) = st.
Proof.
  destruct (blank (titleDraft st)) eqn:B.
  { rewrite (commitRename_blank st B). discriminate. }
  destruct (streq (trim (titleDraft st)) (trim (taskTitle st))) eqn:E.
  { apply streq_spec in E. rewrite (commitRename_same st B E). discriminate. }
  apply streq_false in E. rewrite (commitRename_changed st B E). simpl.
  intros H. injection H as <-. repeat split.
  - intros H. apply trim_blank in H. unfold blank in B. congruence.
  - apply trim_idem.
  - exact E.
Qed.

Lemma commitRename_request_witness :
  u "Ship it" <> [] /\ trim (u "Ship it") = u "Ship it".
Proof.
  destruct (commitRename_request
              (sample_state (u "Deploy") (u " Ship it ")) (u "Ship it")
              eq_refl) as (_ & H1 & H2 & _).
  now split.
Defined.

(** While the title is being renamed the dialog's title is the title of
    its prop: starting to rename establishes this, and typing, committing
    and a fetched task list keep it. *)
Lemma renaming_shows_prop
    (updateTaskTitle : jsstring -> option TaskPublic)
    (task_title new_title draft : jsstring) (st : RenameState) :
  (isRenamingTitle st = false ->
   isRenamingTitle (startRename task_title st) = true
   /\ taskTitle (startRename task_title st) = task_title)
  /\ ((isRenamingTitle st = true -> taskTitle st = task_title) ->
      (isRenamingTitle (onChange st draft) = true ->
       taskTitle (onChange st draft) = task_title)
      /\ (isRenamingTitle (renameFlow updateTaskTitle task_title st) = true ->
          taskTitle (renameFlow updateTaskTitle task_title st) = task_title)
      /\ (isRenamingTitle (refetched task_title new_title st) = true ->
          taskTitle (refetched task_title new_title st) = new_title)).
Proof.
  split.
  { intros R. unfold startRename.
    rewrite settle_flipped by (simpl; congruence). now split. }
  intros HP. split; [exact HP|]. split.
  - unfold renameFlow.
    destruct (blank (titleDraft st)) eqn:B.
    { rewrite (commitRename_blank st B).
      rewrite settle_quiet by reflexivity. exact HP. }
    destruct (streq (trim (titleDraft st)) (trim (taskTitle st))) eqn:E.
    { apply streq_spec in E. rewrite (commitRename_same st B E).
      rewrite settle_renaming. discriminate. }
    apply streq_false in E. rewrite (commitRename_changed st B E).
    destruct (updateTaskTitle (trim (titleDraft st))).
    + rewrite settle_renaming. discriminate.
    + rewrite settle_quiet by reflexivity. exact HP.
  - unfold refetched, settle. rewrite eqb_reflx, orb_false_r.
    destruct (streq task_title new_title) eqn:E; simpl; [|reflexivity].
    apply streq_spec in E. intros R. rewrite <- E. now apply HP.
Qed.

(** A rename that the server rejects keeps the title, and does not change
    what the next attempt does: committing again after the failure ends in
    the same state as committing without it.  The dialog is taken as the
    page leaves it: while renaming, its title is the title of its prop. *)
Theorem failed_rename_retry
    (updateTaskTitle : jsstring -> option TaskPublic)
    (task_title : jsstring) (st : RenameState) :
  (isRenamingTitle st = true -> taskTitle st = task_title) ->
  taskTitle (renameFlow (fun _ => None) task_title st) = taskTitle st
  /\ renameFlow updateTaskTitle task_title
       (renameFlow (fun _ => None) task_title st)
     = renameFlow updateTaskTitle task_title st.
Proof.
  intros HP.
  assert (C : settle task_title task_title st (cancelRename st)
              = cancelRename st).
  { destruct (isRenamingTitle st) eqn:R.
    - rewrite settle_flipped by (simpl; congruence).
      unfold syncTitleEffect, cancelRename. simpl. now rewrite (HP eq_refl).
    - apply settle_quiet. simpl. congruence. }
  unfold renameFlow at 1 3 4.
  destruct (blank (titleDraft st)) eqn:B.
  { rewrite (commitRename_blank st B).
    rewrite settle_quiet by reflexivity.
    split; [reflexivity|].
    unfold renameFlow. rewrite commitRename_blank by exact B.
    rewrite settle_quiet by reflexivity. reflexivity. }
  destruct (streq (trim (titleDraft st)) (trim (taskTitle st))) eqn:E.
  { apply streq_spec in E. rewrite (commitRename_same st B E).
    rewrite C. split; [reflexivity|]. unfold renameFlow.
    assert (Bt : blank (titleDraft (cancelRename st)) = false).
    { simpl. destruct (blank (taskTitle st)) eqn:Bt; [|reflexivity].
      apply trim_blank in Bt. rewrite Bt in E. apply trim_blank in E.
      unfold blank in B. congruence. }
    rewrite (commitRename_same (cancelRename st) Bt eq_refl).
    now rewrite settle_quiet by reflexivity. }
  apply streq_false in E. rewrite (commitRename_changed st B E).
  rewrite settle_quiet by reflexivity.
  split; [reflexivity|]. unfold renameFlow.
  rewrite (commitRename_changed (onError st) B E). simpl.
  destruct (updateTaskTitle (trim (titleDraft st))); [reflexivity|].
  now rewrite settle_quiet by reflexivity.
Qed.

Lemma failed_rename_retry_witness :
  taskTitle
    (renameFlow (fun _ => None) (u "Deploy")
       (sample_state (u "Deploy") (u " Ship it ")))
  = u "Deploy"
  /\ renameFlow (fun t => Some (sample_task t)) (u "Deploy")
       (renameFlow (fun _ => None) (u "Deploy")
          (sample_state (u "Deploy") (u " Ship it ")))
     = renameFlow (fun t => Some (sample_task t)) (u "Deploy")
         (sample_state (u "Deploy") (u " Ship it ")).
Proof.
  apply (failed_rename_retry (fun t => Some (sample_task t)) (u "Deploy")
           (sample_state (u "Deploy") (u " Ship it "))).
  intros _. reflexivity.
Defined.

End RenameMoreProps.

(** ** The two revisions of the library page *)

Module LibraryViewProps.

Import JsFacts LibraryApi TasksPage LibraryList LibraryGroups Samples.

(** The task list, the runs of a task and the run detail show a failure
    without looking at the error: two query states that differ only in
    their error object render alike, and a failed rename always sets the
    same message. *)
Theorem task_views_hide_error (A : Type) (q1 q2 : QueryResult A)
    (st : RenameState) :
  isLoading q1 = isLoading q2 -> isError q1 = isError q2 ->
  data q1 = data q2 ->
  TasksPage_view q1 = TasksPage_view q2
  /\ TaskDialog_runs_view q1 = TaskDialog_runs_view q2
  /\ RunDetailDialog_view q1 = RunDetailDialog_view q2
  /\ titleError (onError st) = Some msg_rename_failed.
Proof.
  intros L E D.
  unfold TasksPage_view, TaskDialog_runs_view, RunDetailDialog_view.
  rewrite L, E, D. repeat split.
Qed.

Lemma task_views_hide_error_witness :
  TasksPage_view (failed (A:=unit) None "connect ECONNREFUSED")
  = TasksPage_view (failed (A:=unit) None "401 Unauthorized").
Proof.
  apply (task_views_hide_error unit
           (failed None "connect ECONNREFUSED")
           (failed None "401 Unauthorized")
           (sample_state [] [])); reflexivity.
Defined.

(** The guards of the two revisions of [LibraryList] take the same
    branch, skeleton, error panel with the same text, or loaded page, for
    every query state except a failure without data: there the earlier one
    keeps the skeleton and never shows the error, the later one shows the
    message of the error.  What the loaded branches render differs between
    the revisions and is not compared. *)
Theorem library_views_differ_on_failed_first_load (A : Type)
    (itemsQuery : QueryResult A) :
  (isLoading itemsQuery = true \/ isError itemsQuery = false
   \/ data itemsQuery <> None ->
   branch_of (LibraryList_view_v1 itemsQuery)
   = branch_of (LibraryList_view_v2 itemsQuery))
  /\ (isLoading itemsQuery = false -> isError itemsQuery = true ->
      data itemsQuery = None ->
      branch_of (LibraryList_view_v1 itemsQuery) = SkeletonBranch
      /\ branch_of (LibraryList_view_v2 itemsQuery) <> SkeletonBranch
      /\ forall e, error itemsQuery = Some e ->
           branch_of (LibraryList_view_v2 itemsQuery)
           = ErrorBranch (couldnt "load Library") (message e)).
Proof.
  unfold LibraryList_view_v1, LibraryList_view_v2.
  destruct itemsQuery as [l e d err]; simpl. split.
  - intros [->|[->|H]].
    + reflexivity.
    + destruct l, d; reflexivity.
    + destruct d; [|congruence]. destruct l; reflexivity.
  - intros -> -> ->. simpl. split; [reflexivity|]. split.
    + destruct err; discriminate.
    + now intros e0 ->.
Qed.

Lemma library_views_differ_on_failed_first_load_witness :
  branch_of (LibraryList_view_v1 (failed (A:=unit) None "timeout"))
  = SkeletonBranch
  /\ branch_of (LibraryList_view_v2 (failed (A:=unit) None "timeout"))
     = ErrorBranch (couldnt "load Library") (u "timeout").
Proof.
  destruct (library_views_differ_on_failed_first_load unit
              (failed None "timeout")) as [_ H].
  destruct (H eq_refl eq_refl eq_refl) as (H1 & _ & H3).
  split; [exact H1|].
  exact (H3 {| message := u "timeout" |} eq_refl).
Defined.

(** The items request of the library page: a workflow filter is sent
    unless the bucket select stands on "all" or on a blank key, and then it
    is the trimmed key; the request always asks for current items only,
    from the first, at most 200. *)
Theorem itemsRequest_filter (v q : jsstring) :
  let r := itemsRequest (onBucketChange v) q in
  (q_workflow_key r = None <-> v = u "all" \/ blank v = true)
  /\ (v <> u "all" -> blank v = false -> q_workflow_key r = Some (trim v))
  /\ sent_filter (Some q) (q_q r)
  /\ q_kind r = None
  /\ q_current_only r = Some true
  /\ q_skip r = Some 0%Z
  /\ q_limit r = Some 200%Z.
Proof.
  intros r. subst r. unfold itemsRequest, readLibraryItems; simpl.
  pose proof (RequestProps.trimmed_or_undefined_sent (Some (onBucketChange v)))
    as S.
  pose proof (RequestProps.trimmed_or_undefined_sent (Some q)) as Sq.
  unfold onBucketChange in *.
  destruct (streq v (u "all")) eqn:E.
  - apply streq_spec in E. subst v. simpl in *.
    repeat split; try assumption; try tauto; try congruence.
  - apply streq_false in E. simpl in S.
    destruct (blank v) eqn:B; rewrite S;
      repeat split; try assumption; try tauto; try congruence;
      intros [H|H]; congruence.
Qed.

Lemma itemsRequest_filter_witness :
  q_workflow_key (itemsRequest (onBucketChange (u " deploy_db ")) [])
  = Some (u "deploy_db").
Proof.
  apply (itemsRequest_filter (u " deploy_db ") []);
    [discriminate|reflexivity].
Defined.

End LibraryViewProps.

(** ** The groups of the library page *)

Module GroupingProps.

Import JsFacts LibraryApi TasksPage TasksPageViews LibraryGroups Samples.
Import VisibleTasksProps TasksViewProps.

Lemma streq_sym (a b : jsstring) : streq a b = streq b a.
Proof.
  destruct (streq a b) eqn:E; symmetry.
  - apply streq_spec in E. subst. apply streq_refl.
  - apply streq_false. apply streq_false in E. congruence.
Qed.

Lemma Permutation_concat (A : Type) (l l' : list (list A)) :
  Permutation l l' -> Permutation (concat l) (concat l').
Proof.
  induction 1 as [|x l l' _ IH|x y l|l l' l'' _ IH1 _ IH2]; simpl.
  - constructor.
  - now apply Permutation_app_head.
  - apply Permutation_app_swap_app.
  - now transitivity (concat l').
Qed.

(** The keys in order of first occurrence. *)
Lemma keys_seen (items : list LibraryItemPublic) :
  let keys := fold_left (fun ks it => set_add (group_key it) ks) items [] in
  NoDup keys
  /\ forall k, In k keys <-> exists it, In it items /\ group_key it = k.
Proof.
  induction items as [|x items (N & M)] using rev_ind; simpl.
  - split; [constructor|]. intros k. split; [tauto|]. intros (it & [] & _).
  - rewrite fold_left_app. simpl. split; [now apply set_add_NoDup|].
    intros k. rewrite set_add_In, M. split.
    + intros [(it & H & E)| ->].
      * exists it. split; [apply in_or_app; now left|exact E].
      * exists x. split; [apply in_or_app; right; now left|reflexivity].
    + intros (it & H & E). apply in_app_or in H. destruct H as [H|[<-|[]]].
      * left. now exists it.
      * now right.
Qed.

Lemma add_to_group_step (items : list LibraryItemPublic)
    (x : LibraryItemPublic) (keys : list jsstring) :
  NoDup keys ->
  (In (group_key x) keys \/ filter (has_key (group_key x)) items = []) ->
  add_to_group (group_key x) x
    (map (fun k => (k, filter (has_key k) items)) keys)
  = map (fun k => (k, filter (has_key k) (items ++ [x])))
        (set_add (group_key x) keys).
Proof.
  intros N H. induction keys as [|k keys IH].
  - destruct H as [[]|H]. unfold set_add. simpl.
    rewrite filter_app, H. simpl. unfold has_key. now rewrite streq_refl.
  - inversion N as [|? ? Hk N']; subst. simpl.
    assert (S : set_add (group_key x) (k :: keys)
                = k :: (if streq k (group_key x) then keys
                        else set_add (group_key x) keys)).
    { unfold set_add. simpl. rewrite (streq_sym (group_key x) k).
      destruct (streq k (group_key x)); [reflexivity|]. simpl.
      now destruct (existsb (streq (group_key x)) keys). }
    rewrite S. destruct (streq k (group_key x)) eqn:E.
    + apply streq_spec in E. subst k. simpl. f_equal.
      * rewrite filter_app. simpl. unfold has_key at 3.
        now rewrite streq_refl.
      * apply map_ext_in. intros k' Hk'. rewrite filter_app. simpl.
        unfold has_key at 3.
        destruct (streq (group_key x) k') eqn:E'; [|now rewrite app_nil_r].
        apply streq_spec in E'. subst k'. contradiction.
    + simpl. f_equal.
      * rewrite filter_app. simpl. unfold has_key at 3.
        rewrite (streq_sym (group_key x) k), E. now rewrite app_nil_r.
      * apply IH; [exact N'|].
        destruct H as [[->|H]|H]; [|now left|now right].
        rewrite streq_refl in E. discriminate.
Qed.

(** The map that the loop builds, before sorting: one entry per key, in
    order of first occurrence, with the items of that key. *)
Lemma grouped_by_key (items : list LibraryItemPublic) :
  fold_left (fun map item => add_to_group (group_key item) item map) items []
  = map (fun k => (k, filter (has_key k) items))
        (fold_left (fun ks it => set_add (group_key it) ks) items []).
Proof.
  induction items as [|x items IH] using rev_ind; [reflexivity|].
  rewrite !fold_left_app. simpl. rewrite IH.
  destruct (keys_seen items) as [N M].
  apply add_to_group_step; [exact N|].
  destruct (filter (has_key (group_key x)) items) as [|it l] eqn:F;
    [now right|left].
  assert (H : In it (filter (has_key (group_key x)) items))
    by (rewrite F; now left).
  apply filter_In in H. destruct H as [H E]. apply streq_spec in E.
  apply M. now exists it.
Qed.

Lemma add_to_group_concat (k : jsstring) (x : LibraryItemPublic)
    (m : list (jsstring * list LibraryItemPublic)) :
  Permutation (concat (map snd (add_to_group k x m)))
              (x :: concat (map snd m)).
Proof.
  induction m as [|[k' l] m IH]; simpl; [reflexivity|].
  destruct (streq k' k); simpl.
  - rewrite <- app_assoc. simpl. symmetry. apply Permutation_middle.
  - rewrite IH. symmetry. apply Permutation_middle.
Qed.

Lemma grouped_all (items : list LibraryItemPublic) :
  Permutation
    (concat (map snd
       (fold_left (fun map item => add_to_group (group_key item) item map)
                  items [])))
    items.
Proof.
  induction items as [|x items IH] using rev_ind; [reflexivity|].
  rewrite fold_left_app. simpl. rewrite add_to_group_concat, IH.
  apply Permutation_cons_append.
Qed.

(** [groupByWorkflowKey] puts every item into exactly one group, the group
    of its workflow key ("(none)" for an empty key): the keys of the groups
    are distinct, a group holds the items of its key in input order and is
    never empty, and the groups together hold every item as often as the
    input does.  With a consistent [localeCompare] the groups are in the
    collation order of their keys. *)
Theorem groupByWorkflowKey_partition
    (localeCompare : jsstring -> jsstring -> Z)
    (items : list LibraryItemPublic) :
  let groups := groupByWorkflowKey localeCompare items in
  NoDup (map fst groups)
  /\ (forall k list,
        In (k, list) groups <->
        list = filter (has_key k) items /\ list <> [])
  /\ Permutation (concat (map snd groups)) items
  /\ ((forall a b, (0 < localeCompare a b -> localeCompare b a <= 0)%Z) ->
      (forall a b c, (localeCompare a b <= 0 -> localeCompare b c <= 0 ->
                      localeCompare a c <= 0)%Z) ->
      StronglySorted (fun a b => (localeCompare (fst a) (fst b) <= 0)%Z)
                     groups).
Proof.
  intros groups.
  pose proof (sort_perm _ (fun a b => localeCompare (fst a) (fst b))
                (fold_left
                   (fun map item => add_to_group (group_key item) item map)
                   items [])) as P.
  fold (groupByWorkflowKey localeCompare items) in P. fold groups in P.
  destruct (keys_seen items) as [N M].
  pose proof (grouped_by_key items) as G.
  split; [|split; [|split]].
  - apply (Permutation_NoDup (Permutation_map fst (Permutation_sym P))).
    rewrite G, map_map. simpl. now rewrite map_id.
  - intros k l. split.
    + intros H. apply (Permutation_in _ P) in H. rewrite G in H.
      apply in_map_iff in H. destruct H as (k' & E & H). inversion E; subst.
      split; [reflexivity|]. apply M in H. destruct H as (it & Hit & Ek).
      intros F.
      assert (In it (filter (has_key k) items)).
      { apply filter_In. split; [exact Hit|]. unfold has_key.
        rewrite Ek. apply streq_refl. }
      rewrite F in H. contradiction.
    + intros [-> H]. apply (Permutation_in _ (Permutation_sym P)).
      rewrite G. apply in_map_iff. exists k. split; [reflexivity|].
      destruct (filter (has_key k) items) as [|it l] eqn:F; [congruence|].
      assert (Hit : In it (filter (has_key k) items)) by (rewrite F; now left).
      apply filter_In in Hit. destruct Hit as [Hit E].
      apply streq_spec in E. apply M. now exists it.
  - rewrite (Permutation_concat _ _ _ (Permutation_map snd P)).
    apply grouped_all.
  - intros T Tr. subst groups. unfold groupByWorkflowKey.
    apply (sort_sorted _ (fun a b => localeCompare (fst a) (fst b))).
    + intros a b. apply T.
    + intros a b c. apply Tr.
Qed.

Lemma groupByWorkflowKey_partition_witness :
  StronglySorted (fun a b => (codeUnitCompare (fst a) (fst b) <= 0)%Z)
    (groupByWorkflowKey codeUnitCompare LibrarySamples.sample_cards)
  /\ map (fun g => (fst g, map id (snd g)))
       (groupByWorkflowKey codeUnitCompare LibrarySamples.sample_cards)
     = [ (u "(none)", [u "c2"; u "c5"]);
         (u "deploy_db", [u "c3"]);
         (u "github_api", [u "c1"; u "c4"]) ].
Proof.
  split; [|reflexivity].
  apply (groupByWorkflowKey_partition codeUnitCompare
           LibrarySamples.sample_cards).
  - apply codeUnitCompare_total.
  - apply codeUnitCompare_trans.
Defined.

(** *** Later revision *)

Lemma map_get_set (k k' v : jsstring) (m : list (jsstring * jsstring)) :
  map_get k (map_set k' v m)
  = if streq k' k then Some v else map_get k m.
Proof.
  induction m as [|[k0 v0] m IH]; simpl.
  - reflexivity.
  - destruct (streq k0 k') eqn:E0; simpl.
    + apply streq_spec in E0. subst k0.
      now destruct (streq k' k).
    + destruct (streq k0 k) eqn:E1.
      * apply streq_spec in E1. subst k0.
        rewrite (streq_sym k' k), E0. reflexivity.
      * exact IH.
Qed.

(** A lookup in [bucketNameByKey] gives the name of the last bucket of the
    answer that has the key, and nothing when no bucket has it. *)
Theorem bucketNameByKey_last (buckets : list WorkflowKeyCount)
    (key : jsstring) :
  map_get key (bucketNameByKey buckets)
  = option_map bucket_name
      (find (fun b => streq (wk_workflow_key b) key) (rev buckets)).
Proof.
  unfold bucketNameByKey.
  induction buckets as [|b buckets IH] using rev_ind; [reflexivity|].
  rewrite fold_left_app, rev_app_distr. simpl. rewrite map_get_set.
  destruct (streq (wk_workflow_key b) key); [reflexivity|exact IH].
Qed.

Lemma add_to_bucket_groups (k n : jsstring) (x : LibraryItemPublic)
    (m : list BucketGroup) :
  map (fun g => (workflowKey g, items g)) (add_to_bucket k n x m)
  = add_to_group k x (map (fun g => (workflowKey g, items g)) m).
Proof.
  induction m as [|g m IH]; simpl; [reflexivity|].
  destruct (streq (workflowKey g) k); simpl; [reflexivity|].
  now rewrite IH.
Qed.

Lemma add_to_bucket_names (P : BucketGroup -> Prop) (k n : jsstring)
    (x : LibraryItemPublic) (m : list BucketGroup) :
  (forall g, P g -> workflowKey g = k ->
             P {| workflowKey := workflowKey g; bucketName := bucketName g;
                  items := items g ++ [x] |}) ->
  P {| workflowKey := k; bucketName := n; items := [x] |} ->
  Forall P m -> Forall P (add_to_bucket k n x m).
Proof.
  intros Hpush Hnew. induction 1 as [|g m Hg Hm IH]; simpl.
  - now repeat constructor.
  - destruct (streq (workflowKey g) k) eqn:E.
    + apply streq_spec in E. constructor; [now apply Hpush|exact Hm].
    + now constructor.
Qed.

Section Buckets.

Variables toLowerCase toUpperCase : jsstring -> jsstring.
Variable localeCompare : jsstring -> jsstring -> Z.
Variable names : list (jsstring * jsstring).

Lemma built_groups (cards : list LibraryItemPublic) :
  map (fun g => (workflowKey g, items g)) (bucket_map toLowerCase toUpperCase names cards)
  = fold_left (fun map item => add_to_group (group_key item) item map)
              cards [].
Proof.
  unfold bucket_map. induction cards as [|x cards IH] using rev_ind;
    [reflexivity|].
  rewrite !fold_left_app. simpl. now rewrite add_to_bucket_groups, IH.
Qed.

Lemma built_names (cards : list LibraryItemPublic) :
  Forall (fun g => bucketName g
                   = bucket_name_for toLowerCase toUpperCase names
                       (workflowKey g))
         (bucket_map toLowerCase toUpperCase names cards).
Proof.
  unfold bucket_map. induction cards as [|x cards IH] using rev_ind;
    [constructor|].
  rewrite fold_left_app. simpl.
  apply add_to_bucket_names; [|reflexivity|exact IH].
  intros g Hg _. exact Hg.
Qed.

End Buckets.

(** [groupByBucket] puts every item into exactly one group, the group of
    its workflow key: the keys of the groups are distinct, a group holds
    the items of its key in input order and is never empty, the groups
    together hold every item as often as the input does, and the name of a
    group is the non-empty name that the lookup gives for its key, else the
    humanized key.  With a consistent [localeCompare] the groups are in the
    collation order of their names. *)
Theorem groupByBucket_partition
    (toLowerCase toUpperCase : jsstring -> jsstring)
    (localeCompare : jsstring -> jsstring -> Z)
    (cards : list LibraryItemPublic) (names : list (jsstring * jsstring)) :
  let groups :=
    groupByBucket toLowerCase toUpperCase localeCompare cards names in
  NoDup (map workflowKey groups)
  /\ (forall g, In g groups ->
        items g = filter (has_key (workflowKey g)) cards
        /\ items g <> []
        /\ bucketName g
           = match map_get (workflowKey g) names with
             | Some (c :: name) => c :: name
             | _ => humanizeWorkflowKey toLowerCase toUpperCase
                      (workflowKey g)
             end)
  /\ (forall item, In item cards ->
        exists g, In g groups /\ workflowKey g = group_key item)
  /\ Permutation (concat (map items groups)) cards
  /\ ((forall a b, (0 < localeCompare a b -> localeCompare b a <= 0)%Z) ->
      (forall a b c, (localeCompare a b <= 0 -> localeCompare b c <= 0 ->
                      localeCompare a c <= 0)%Z) ->
      StronglySorted
        (fun a b => (localeCompare (bucketName a) (bucketName b) <= 0)%Z)
        groups).
Proof.
  intros groups.
  pose proof (sort_perm _
                (fun a b => localeCompare (bucketName a) (bucketName b))
                (bucket_map toLowerCase toUpperCase names cards)) as P.
  change (sort _ (bucket_map toLowerCase toUpperCase names cards))
    with groups in P.
  pose proof (built_groups toLowerCase toUpperCase names cards) as G.
  rewrite grouped_by_key in G.
  destruct (keys_seen cards) as [N M].
  assert (K : Permutation (map (fun g => (workflowKey g, items g)) groups)
                (map (fun k => (k, filter (has_key k) cards))
                   (fold_left (fun ks it => set_add (group_key it) ks)
                      cards []))).
  { rewrite <- G. now apply Permutation_map. }
  split; [|split; [|split; [|split]]].
  - apply (Permutation_NoDup
             (l := map fst (map (fun k => (k, filter (has_key k) cards))
                      (fold_left (fun ks it => set_add (group_key it) ks)
                         cards [])))).
    + rewrite <- (map_map (fun g => (workflowKey g, items g)) fst).
      apply Permutation_map. now symmetry.
    + rewrite map_map. simpl. now rewrite map_id.
  - intros g Hg.
    assert (H : In (workflowKey g, items g)
                  (map (fun g => (workflowKey g, items g)) groups))
      by (apply in_map_iff; now exists g).
    apply (Permutation_in _ K) in H. apply in_map_iff in H.
    destruct H as (k & E & H). inversion E as [[Ek Ei]]. rewrite <- Ek.
    split; [reflexivity|]. split.
    + apply M in H. destruct H as (it & Hit & Ekey). intros F.
      assert (In it (filter (has_key k) cards)).
      { apply filter_In. split; [exact Hit|]. unfold has_key.
        rewrite Ekey. apply streq_refl. }
      rewrite F in H. contradiction.
    + pose proof (built_names toLowerCase toUpperCase names cards) as B.
      rewrite Forall_forall in B.
      rewrite Ek. rewrite (B g (Permutation_in _ P Hg)).
      unfold bucket_name_for.
      destruct (map_get (workflowKey g) names) as [[|c name]|]; reflexivity.
  - intros item Hitem.
    assert (H : In (group_key item)
                  (fold_left (fun ks it => set_add (group_key it) ks)
                     cards []))
      by (apply M; now exists item).
    assert (H' : In (group_key item, filter (has_key (group_key item)) cards)
                   (map (fun g => (workflowKey g, items g)) groups)).
    { apply (Permutation_in _ (Permutation_sym K)). apply in_map_iff.
      now exists (group_key item). }
    apply in_map_iff in H'. destruct H' as (g & E & Hg).
    exists g. split; [exact Hg|]. now inversion E.
  - rewrite <- (map_map (fun g => (workflowKey g, items g)) snd).
    rewrite (Permutation_concat _ _ _
               (Permutation_map snd
                  (Permutation_map (fun g => (workflowKey g, items g)) P))).
    rewrite built_groups. apply grouped_all.
  - intros T Tr. subst groups. unfold groupByBucket.
    apply (sort_sorted _
             (fun a b => localeCompare (bucketName a) (bucketName b))).
    + intros a b. apply T.
    + intros a b c. apply Tr.
Qed.

Lemma groupByBucket_partition_witness :
  StronglySorted
    (fun a b => (codeUnitCompare (bucketName a) (bucketName b) <= 0)%Z)
    (groupByBucket asciiLowerCase asciiUpperCase codeUnitCompare
       LibrarySamples.sample_cards
       (bucketNameByKey LibrarySamples.sample_buckets))
  /\ map (fun g => (bucketName g, map id (items g)))
       (groupByBucket asciiLowerCase asciiUpperCase codeUnitCompare
          LibrarySamples.sample_cards
          (bucketNameByKey LibrarySamples.sample_buckets))
     = [ (u "(none)", [u "c2"; u "c5"]);
         (u "Deploy DB", [u "c3"]);
         (u "GitHub API", [u "c1"; u "c4"]) ].
Proof.
  split; [|reflexivity].
  apply (groupByBucket_partition asciiLowerCase asciiUpperCase
           codeUnitCompare LibrarySamples.sample_cards
           (bucketNameByKey LibrarySamples.sample_buckets)).
  - apply codeUnitCompare_total.
  - apply codeUnitCompare_trans.
Defined.

End GroupingProps.

(** ** The base path of the build *)

Module ViteConfigProps.

Import JsFacts JsMoreFacts ViteConfig.

Lemma starts_with_slash (s : jsstring) :
  starts_with (u "/") s = true <-> exists t, s = 47 :: t.
Proof.
  change (u "/") with [47]. destruct s as [|c t]; cbn [starts_with].
  - split; [discriminate|]. intros (t & H). discriminate.
  - rewrite andb_true_r, N.eqb_eq. split.
    + intros <-. now exists t.
    + intros (t' & H). now inversion H.
Qed.

Lemma ends_with_slash (s : jsstring) :
  ends_with (u "/") s = true <-> exists t, s = t ++ [47].
Proof.
  unfold ends_with. change (rev (u "/")) with (u "/").
  rewrite starts_with_slash. split.
  - intros (t & H). exists (rev t).
    rewrite <- (rev_involutive s), H. reflexivity.
  - intros (t & ->). exists (rev t). now rewrite rev_app_distr.
Qed.

Lemma slashed_fixed (s : jsstring) :
  starts_with (u "/") s = true -> ends_with (u "/") s = true ->
  normalizedBase (Some s) = s.
Proof.
  intros S E. unfold normalizedBase.
  assert (T : trim s = s).
  { pose proof S as S'. apply starts_with_slash in S'.
    destruct S' as (t & ->).
    pose proof E as E'. apply ends_with_slash in E'.
    destruct E' as (t' & Et). unfold trim. simpl. rewrite Et.
    now apply trimEnd_fixed. }
  assert (Hne : truthy s = true).
  { pose proof S as S'. apply starts_with_slash in S'.
    destruct S' as (t & ->). reflexivity. }
  unfold trimmed_or_undefined, or_else. cbn [option_map]. cbv beta iota.
  rewrite T, Hne. cbv beta iota. rewrite S, E. reflexivity.
Qed.

(** The base path of the build always begins and ends with a slash, and
    normalizing it again changes nothing.  It is "/" when the variable is
    not set or blank; otherwise it is the trimmed value with a slash put in
    front and behind where one is missing. *)
Theorem normalizedBase_slashes (VITE_BASE_PATH : option jsstring) :
  let base := normalizedBase VITE_BASE_PATH in
  starts_with (u "/") base = true
  /\ ends_with (u "/") base = true
  /\ normalizedBase (Some base) = base
  /\ (sent_filter VITE_BASE_PATH None -> base = u "/")
  /\ (forall raw,
        VITE_BASE_PATH = Some raw -> blank raw = false ->
        base
        = (if starts_with (u "/") (trim raw) then [] else u "/")
          ++ trim raw
          ++ (if ends_with (u "/") (trim raw) then [] else u "/")).
Proof.
  intros base.
  assert (shape : forall c, c <> [] ->
            let p := if starts_with (u "/") c then c else u "/" ++ c in
            let b := if ends_with (u "/") p then p else p ++ u "/" in
            starts_with (u "/") b = true /\ ends_with (u "/") b = true
            /\ b = (if starts_with (u "/") c then [] else u "/")
                   ++ c ++ (if ends_with (u "/") c then [] else u "/")).
  { intros c Hc p b.
    assert (Sp : starts_with (u "/") p = true).
    { subst p. destruct (starts_with (u "/") c) eqn:S; [exact S|].
      reflexivity. }
    assert (Ep : ends_with (u "/") p = ends_with (u "/") c).
    { subst p. destruct (starts_with (u "/") c); [reflexivity|].
      destruct c as [|x c]; [congruence|].
      unfold ends_with. change (rev (u "/")) with [47].
      change (u "/" ++ x :: c) with (47 :: x :: c).
      change (rev (47 :: x :: c)) with (rev (x :: c) ++ [47]).
      destruct (rev (x :: c)) as [|y r] eqn:R; [|reflexivity].
      apply (f_equal (@length code_unit)) in R.
      rewrite length_rev in R. discriminate. }
    subst b. rewrite Ep. subst p.
    destruct (ends_with (u "/") c) eqn:E.
    - split; [exact Sp|]. split; [now rewrite Ep|].
      destruct (starts_with (u "/") c); now rewrite app_nil_r.
    - split.
      + apply starts_with_slash in Sp. destruct Sp as (t & ->).
        reflexivity.
      + split; [apply ends_with_slash; now eexists|].
        destruct (starts_with (u "/") c); [reflexivity|].
        now rewrite <- app_assoc. }
  assert (cases : (sent_filter VITE_BASE_PATH None /\ base = u "/")
                  \/ exists raw, VITE_BASE_PATH = Some raw
                       /\ blank raw = false
                       /\ trimmed_or_undefined VITE_BASE_PATH
                          = Some (trim raw)).
  { pose proof (RequestProps.trimmed_or_undefined_sent VITE_BASE_PATH) as S.
    subst base. unfold normalizedBase.
    destruct VITE_BASE_PATH as [raw|]; simpl in S.
    - destruct (blank raw) eqn:B.
      + left. rewrite S. simpl. rewrite B. now split.
      + right. exists raw. now repeat split.
    - left. rewrite S. now split. }
  destruct cases as [[S B]|(raw & -> & B & T)].
  - rewrite B. repeat split; try reflexivity. intros raw -> Bl.
    simpl in S. rewrite Bl in S. discriminate.
  - assert (Hne : trim raw <> []).
    { intros H. apply trim_blank in H. unfold blank in B. congruence. }
    destruct (shape (trim raw) Hne) as (S & E & Eq).
    assert (Eb : base
                 = (if starts_with (u "/") (trim raw) then [] else u "/")
                   ++ trim raw
                   ++ (if ends_with (u "/") (trim raw) then [] else u "/")).
    { subst base. unfold normalizedBase. rewrite T. exact Eq. }
    assert (Sb : starts_with (u "/") base = true).
    { subst base. unfold normalizedBase. rewrite T. exact S. }
    assert (Ebase : ends_with (u "/") base = true).
    { subst base. unfold normalizedBase. rewrite T. exact E. }
    split; [exact Sb|]. split; [exact Ebase|].
    split; [now apply slashed_fixed|]. split.
    + simpl. rewrite B. discriminate.
    + intros raw' Hr _. inversion Hr; subst raw'. exact Eb.
Qed.

Lemma normalizedBase_slashes_witness :
  normalizedBase (Some (u " app/v2 ")) = u "/app/v2/"
  /\ normalizedBase (Some (u "  ")) = u "/".
Proof.
  split.
  - apply (proj2 (proj2 (proj2 (proj2
             (normalizedBase_slashes (Some (u " app/v2 ")))))) (u " app/v2 "));
      reflexivity.
  - apply (proj1 (proj2 (proj2 (proj2
             (normalizedBase_slashes (Some (u "  "))))))). reflexivity.
Defined.

End ViteConfigProps.
